(** * FA2 NAPLPS contract (js/tezos/fa2-naplps.mligo)

    A shallow embedding of the CameLIGO contract and the properties of its
    four entrypoints: Transfer, Balance_of, Update_operators and Mint.

    LIGO's [nat] is an unbounded natural number: it is modelled by [N].
    A [big_map] is a finite map with extensional equality: stdpp's [gmap].
    [failwith] aborts the whole call: entrypoints return a [result], and
    [call] is the chain's view of a contract call, which keeps the old
    storage when the code fails. *)

From Stdlib Require Import NArith ZArith.
From stdpp Require Import gmap strings list fin_maps.

Local Open Scope N_scope.

(** ** Types *)

Abbreviation address := string (only parsing).
Abbreviation token_id := N (only parsing).
Abbreviation bytes := (list Byte.byte) (only parsing).

Abbreviation ledger := (gmap (address * token_id) N) (only parsing).
Abbreviation operators := (gmap (address * (address * token_id)) unit) (only parsing).
Abbreviation token_info := (gmap string bytes) (only parsing).

(** LIGO resolves record fields by type; here every field carries a short
    prefix naming its record. *)
Record token_metadata_value := Build_token_metadata_value {
  tm_token_id : token_id;
  tm_token_info : token_info;
}.

Abbreviation token_metadata := (gmap token_id token_metadata_value) (only parsing).

Record storage := Build_storage {
  s_ledger : ledger;
  s_operators : operators;
  s_token_metadata : token_metadata;
  s_next_token_id : token_id;
}.

(** ** FA2 parameter types *)

Record transfer_destination := Build_transfer_destination {
  tx_to_ : address;
  tx_token_id : token_id;
  tx_amount : N;
}.

Record transfer_param := Build_transfer_param {
  tp_from_ : address;
  tp_txs : list transfer_destination;
}.

Record balance_of_request := Build_balance_of_request {
  req_owner : address;
  req_token_id : token_id;
}.

Record balance_of_response := Build_balance_of_response {
  request : balance_of_request;
  balance : N;
}.

(** A handle on the callback contract, which takes the response list. *)
Inductive contract := Contract (addr : address).

Record balance_of_param := Build_balance_of_param {
  requests : list balance_of_request;
  callback : contract;
}.

Record update_operator := Build_update_operator {
  op_owner : address;
  op_operator : address;
  op_token_id : token_id;
}.

Inductive update_operator_param :=
  | Add_operator (op : update_operator)
  | Remove_operator (op : update_operator).

Record mint_param := Build_mint_param {
  mint_to_ : address;
  mint_metadata : token_info;
}.

Inductive parameter :=
  | Transfer (params : list transfer_param)
  | Balance_of (param : balance_of_param)
  | Update_operators (params : list update_operator_param)
  | Mint (param : mint_param).

(** The only operation the contract emits: [Tezos.transaction v amount c]. *)
Inductive operation :=
  | Transaction (v : list balance_of_response) (mutez : N) (c : contract).

(** ** Failure *)

Inductive result (A : Type) : Type :=
  | Ok (a : A)
  | Failed (msg : string).
Arguments Ok {A} a.
Arguments Failed {A} msg.

Definition failwith {A} (msg : string) : result A := Failed msg.

#[export] Instance result_ret : MRet result := λ A a, Ok a.
#[export] Instance result_bind : MBind result := λ A B f m,
  match m with
  | Ok a => f a
  | Failed msg => Failed msg
  end.

(** [List.fold_left] with a step that may raise: the first failure ends the
    fold, the remaining elements are not visited. *)
Fixpoint List_fold_left {A B} (f : A → B → result A) (acc : A) (l : list B)
    : result A :=
  match l with
  | [] => Ok acc
  | x :: l' => acc' ← f acc x; List_fold_left f acc' l'
  end.

(** ** Big_map primitives *)

Definition Big_map_find_opt {K V} `{Countable K} (k : K) (m : gmap K V)
    : option V := m !! k.

Definition Big_map_mem {K V} `{Countable K} (k : K) (m : gmap K V) : bool :=
  match m !! k with
  | Some _ => true
  | None => false
  end.

Definition Big_map_remove {K V} `{Countable K} (k : K) (m : gmap K V)
    : gmap K V := delete k m.

Definition Big_map_update {K V} `{Countable K} (k : K) (v : option V)
    (m : gmap K V) : gmap K V :=
  match v with
  | Some x => <[k:=x]> m
  | None => delete k m
  end.

(** [abs : int -> nat] *)
Definition abs (z : Z) : N := Z.abs_N z.

(** ** Entrypoints *)

Definition nat_or_zero (opt : option N) : N :=
  match opt with
  | None => 0
  | Some n => n
  end.

Section Entrypoints.

(** [Tezos.get_sender ()]: fixed for the duration of a call. *)
Variable sender : address.

Definition do_transfer (s : storage) (from_ : address)
    (tx : transfer_destination) : result storage :=
  _ ← (if bool_decide (sender ≠ from_) then
         if negb (Big_map_mem (from_, (sender, tx_token_id tx)) (s_operators s))
         then failwith "FA2_NOT_OPERATOR"
         else Ok ()
       else Ok ());
  let from_key := (from_, tx_token_id tx) in
  let from_bal := nat_or_zero (Big_map_find_opt from_key (s_ledger s)) in
  _ ← (if from_bal <? tx_amount tx
       then failwith "FA2_INSUFFICIENT_BALANCE"
       else Ok ());
  let new_from := abs (Z.of_N from_bal - Z.of_N (tx_amount tx)) in
  let ledger1 :=
    if new_from =? 0
    then Big_map_remove from_key (s_ledger s)
    else Big_map_update from_key (Some new_from) (s_ledger s) in
  let to_key := (tx_to_ tx, tx_token_id tx) in
  let to_bal := nat_or_zero (Big_map_find_opt to_key ledger1) in
  let ledger2 := Big_map_update to_key (Some (to_bal + tx_amount tx)) ledger1 in
  Ok {| s_ledger := ledger2;
        s_operators := s_operators s;
        s_token_metadata := s_token_metadata s;
        s_next_token_id := s_next_token_id s |}.

Definition apply_txs (s : storage) (param : transfer_param) : result storage :=
  List_fold_left (λ acc tx, do_transfer acc (tp_from_ param) tx) s (tp_txs param).

Definition transfer (params : list transfer_param) (s : storage)
    : result (list operation * storage) :=
  s ← List_fold_left (λ acc p, apply_txs acc p) s params;
  Ok ([], s).

Definition balance_of (param : balance_of_param) (s : storage)
    : result (list operation * storage) :=
  let ledger := s_ledger s in
  let responses :=
    map (λ req,
           let bal := nat_or_zero
             (Big_map_find_opt (req_owner req, req_token_id req) ledger) in
           {| request := req; balance := bal |})
        (requests param) in
  let op := Transaction responses 0 (callback param) in
  Ok ([op], s).

Definition apply_operator_update (ops : operators)
    (param : update_operator_param) : result operators :=
  match param with
  | Add_operator op =>
      _ ← (if bool_decide (sender ≠ op_owner op)
           then failwith "FA2_NOT_OWNER" else Ok ());
      Ok (Big_map_update (op_owner op, (op_operator op, op_token_id op))
            (Some ()) ops)
  | Remove_operator op =>
      _ ← (if bool_decide (sender ≠ op_owner op)
           then failwith "FA2_NOT_OWNER" else Ok ());
      Ok (Big_map_remove (op_owner op, (op_operator op, op_token_id op)) ops)
  end.

Definition update_operators (params : list update_operator_param)
    (s : storage) : result (list operation * storage) :=
  ops ← List_fold_left (λ acc p, apply_operator_update acc p)
          (s_operators s) params;
  Ok ([], {| s_ledger := s_ledger s;
             s_operators := ops;
             s_token_metadata := s_token_metadata s;
             s_next_token_id := s_next_token_id s |}).

Definition mint (param : mint_param) (s : storage)
    : result (list operation * storage) :=
  let token_id := s_next_token_id s in
  let ledger := Big_map_update (mint_to_ param, token_id) (Some 1) (s_ledger s) in
  let meta := {| tm_token_id := token_id; tm_token_info := mint_metadata param |} in
  let token_metadata := Big_map_update token_id (Some meta) (s_token_metadata s) in
  Ok ([], {| s_ledger := ledger;
             s_operators := s_operators s;
             s_token_metadata := token_metadata;
             s_next_token_id := token_id + 1 |}).

Definition main (param : parameter) (s : storage)
    : result (list operation * storage) :=
  match param with
  | Transfer params => transfer params s
  | Balance_of param => balance_of param s
  | Update_operators params => update_operators params s
  | Mint param => mint param s
  end.

(** The chain's view of one contract call. When [main] returns, its
    operations are emitted and its storage is committed; when it raises, the
    error is reported and the storage stays the one before the call. *)
Definition call (param : parameter) (s : storage)
    : result (list operation) * storage :=
  match main param s with
  | Ok (ops, s') => (Ok ops, s')
  | Failed msg => (Failed msg, s)
  end.

End Entrypoints.

(** ** Vocabulary of the properties *)

(** The triples of a Transfer call in the order the spec reads them: group
    after group, and inside a group triple after triple, each with the source
    owner of its group. *)
Definition triples (params : list transfer_param)
    : list (address * transfer_destination) :=
  flat_map (λ p, map (λ tx, (tp_from_ p, tx)) (tp_txs p)) params.

(** Running a sequence of triples one after the other, each on the storage
    its predecessor left. *)
Definition run_triples (sender : address) (s : storage)
    (l : list (address * transfer_destination)) : result storage :=
  List_fold_left (λ acc ftx, do_transfer sender acc ftx.1 ftx.2) s l.

(** The caller may move [from_]'s holdings of the triple's token. *)
Definition authorized (sender : address) (ops : operators) (from_ : address)
    (tx : transfer_destination) : Prop :=
  sender = from_ ∨ is_Some (ops !! (from_, (sender, tx_token_id tx))).

(** The holding of [owner] in token [t], an absent entry read as 0. *)
Definition holding (l : ledger) (owner : address) (t : token_id) : N :=
  nat_or_zero (l !! (owner, t)).

(** What one ledger entry contributes to the supply of token [t]. *)
Definition share (t : token_id) (k : address * token_id) (q : N) : N :=
  if decide (k.2 = t) then q else 0.

(** The sum of the ledger quantities of token [t]. *)
Definition total_supply (t : token_id) (l : ledger) : N :=
  map_fold (λ k q acc, share t k q + acc) 0 l.

(** Every stored quantity is strictly positive. *)
Definition ledger_positive (l : ledger) : Prop :=
  ∀ k q, l !! k = Some q → 0 < q.

(** The storage with another ledger. *)
Definition with_ledger (s : storage) (l : ledger) : storage :=
  {| s_ledger := l;
     s_operators := s_operators s;
     s_token_metadata := s_token_metadata s;
     s_next_token_id := s_next_token_id s |}.

(** Step 3 of the spec's transfer: the new quantity is old - amount; an
    entry that reaches 0 is removed, any other is updated. *)
Definition debit (l : ledger) (owner : address) (t : token_id) (a : N) : ledger :=
  if decide (holding l owner t - a = 0)
  then delete (owner, t) l
  else <[(owner, t) := holding l owner t - a]> l.

(** Step 4 of the spec's transfer: the new quantity is old (0 if absent) +
    amount, and it is stored. *)
Definition credit (l : ledger) (owner : address) (t : token_id) (a : N) : ledger :=
  <[(owner, t) := holding l owner t + a]> l.

(** A sequence of triples that never overdraws: for each triple in turn, on
    the storage the triples before it left, the caller is authorized and the
    amount is covered by the holding of the source. *)
Fixpoint covered (sender : address) (s : storage)
    (l : list (address * transfer_destination)) : Prop :=
  match l with
  | [] => True
  | (from_, tx) :: l' =>
      authorized sender (s_operators s) from_ tx ∧
      tx_amount tx ≤ holding (s_ledger s) from_ (tx_token_id tx) ∧
      covered sender
        (with_ledger s
           (credit (debit (s_ledger s) from_ (tx_token_id tx) (tx_amount tx))
              (tx_to_ tx) (tx_token_id tx) (tx_amount tx)))
        l'
  end.

(** The owner an operator directive names. *)
Definition directive_owner (d : update_operator_param) : address :=
  match d with
  | Add_operator op => op_owner op
  | Remove_operator op => op_owner op
  end.

(** The response the spec asks for one request. *)
Definition response_for (l : ledger) (req : balance_of_request)
    : balance_of_response :=
  {| request := req; balance := holding l (req_owner req) (req_token_id req) |}.

(** The storage with another operator store. *)
Definition with_operators (s : storage) (ops : operators) : storage :=
  {| s_ledger := s_ledger s;
     s_operators := ops;
     s_token_metadata := s_token_metadata s;
     s_next_token_id := s_next_token_id s |}.

(** ** Statements the code does not satisfy as written

    Each is a sentence of the spec read literally; the theorems below give a
    concrete input on which it fails and prove the statement that holds. *)

(** "A triple whose amount exceeds the source's balance when it is processed,
    after earlier triples that all passed, makes the call fail with
    InsufficientBalance and leaves the storage as it was": nothing is asked
    of the caller's authorization for that triple. *)
Definition overdraw_reports_insufficient_balance : Prop :=
  ∀ (sender : address) (s : storage) (params : list transfer_param)
    (pre post : list (address * transfer_destination))
    (from_ : address) (tx : transfer_destination) (s1 : storage),
    triples params = pre ++ (from_, tx) :: post →
    run_triples sender s pre = Ok s1 →
    holding (s_ledger s1) from_ (tx_token_id tx) < tx_amount tx →
    call sender (Transfer params) s = (Failed "FA2_INSUFFICIENT_BALANCE", s).

(** "For every triple of the call: an authorized caller passes the check;
    otherwise the whole call fails with NotOperator and the storage is left
    as it was": nothing is asked of the triples before it. *)
Definition unauthorized_reports_not_operator : Prop :=
  ∀ (sender : address) (s : storage) (params : list transfer_param)
    (from_ : address) (tx : transfer_destination),
    (from_, tx) ∈ triples params →
    (authorized sender (s_operators s) from_ tx →
     ∀ s1, s_operators s1 = s_operators s →
       do_transfer sender s1 from_ tx ≠ Failed "FA2_NOT_OPERATOR") ∧
    (¬ authorized sender (s_operators s) from_ tx →
     call sender (Transfer params) s = (Failed "FA2_NOT_OPERATOR", s)).

(** "Add then remove, both issued by the owner, yields an operator store in
    which the entry equals its value before the add, namely absent": for
    every storage, also one that holds the entry already. *)
Definition add_then_remove_restores : Prop :=
  ∀ (s : storage) (o p : address) (t : token_id),
    let d := Build_update_operator o p t in
    let s' := (call o (Update_operators [Add_operator d; Remove_operator d]) s).2 in
    s_operators s' !! (o, (p, t)) = s_operators s !! (o, (p, t)) ∧
    s_operators s' !! (o, (p, t)) = None.

(** ** Sample data *)

Definition alice : address := "tz1Alice".
Definition bob : address := "tz1Bob".
Definition carol : address := "tz1Carol".

(** The storage at origination: (Pair (Pair {} {}) (Pair {} 0)). *)
Definition initial_storage : storage :=
  {| s_ledger := ∅; s_operators := ∅; s_token_metadata := ∅;
     s_next_token_id := 0 |}.

(** Alice holds token 0. *)
Definition alice_holds_0 : storage :=
  {| s_ledger := {[ (alice, 0) := 1 ]}; s_operators := ∅;
     s_token_metadata := ∅; s_next_token_id := 1 |}.

(** Alice gave token 0 to Bob. *)
Definition bob_holds_0 : storage :=
  {| s_ledger := {[ (bob, 0) := 1 ]}; s_operators := ∅;
     s_token_metadata := ∅; s_next_token_id := 1 |}.

(** The storage after Alice minted token 0 with a one-byte payload, and
    after she gave that token to Bob. *)
Definition minted_0 : storage :=
  {| s_ledger := {[ (alice, 0) := 1 ]};
     s_operators := ∅;
     s_token_metadata :=
       {[ 0 := {| tm_token_id := 0;
                  tm_token_info := {[ "naplps" := [Byte.xab] ]} |} ]};
     s_next_token_id := 1 |}.

Definition moved_0 : storage :=
  with_ledger minted_0 {[ (bob, 0) := 1 ]}.

(** The ledger holds an entry of quantity 0 for Bob. *)
Definition bob_holds_nothing : storage :=
  {| s_ledger := {[ (bob, 0) := 0 ]}; s_operators := ∅;
     s_token_metadata := ∅; s_next_token_id := 0 |}.

(** Bob is an operator of Alice for token 0. *)
Definition bob_operates_0 : storage :=
  {| s_ledger := {[ (alice, 0) := 1 ]};
     s_operators := {[ (alice, (bob, 0)) := () ]};
     s_token_metadata := ∅; s_next_token_id := 1 |}.

(** ** Histories of calls *)

(** The storage after a sequence of calls, each with its caller, applied to
    the contract one after the other; a call that fails leaves the storage
    it found. *)
Definition execute (s : storage) (calls : list (address * parameter)) : storage :=
  foldl (λ acc c, (call c.1 c.2 acc).2) s calls.

(** The storages the contract can be in: those a history of calls leads to
    from the storage given at origination. *)
Definition reachable (s : storage) : Prop :=
  ∃ calls, s = execute initial_storage calls.

Definition is_Mint (p : parameter) : bool :=
  match p with
  | Mint _ => true
  | _ => false
  end.

(** The number of Mint calls of a history. *)
Definition mints (calls : list (address * parameter)) : nat :=
  length (filter (λ c, is_Mint c.2 = true) calls).

(** The metadata store holds exactly the token-ids below the counter, each
    entry carrying its own key as token_id. *)
Definition metadata_complete (s : storage) : Prop :=
  ∀ k : token_id,
    (is_Some (s_token_metadata s !! k) ↔ k < s_next_token_id s) ∧
    (∀ v, s_token_metadata s !! k = Some v → tm_token_id v = k).

(** One unit of every token-id below the counter is in the ledger, and
    none of any other. *)
Definition one_unit_per_token (s : storage) : Prop :=
  ∀ t : token_id,
    total_supply t (s_ledger s) = if t <? s_next_token_id s then 1 else 0.

(** ** The byte helpers of the wallet page (js/tezos/tezos.js)

    A JavaScript string is a sequence of UTF-16 code units, each below
    65536: a list of [N]. A Number that may be NaN is an [option Z], NaN
    being [None]. *)
Module JS.

(** The digit of value [d] as Number.prototype.toString writes it: 0-9,
    then the lowercase letters. *)
Definition digit_char (d : N) : N := if d <? 10 then 48 + d else 87 + d.

Fixpoint toString_digits (fuel : nat) (radix n : N) (acc : list N) : list N :=
  match fuel with
  | O => acc
  | S fuel' =>
      let acc' := digit_char (n mod radix) :: acc in
      if n / radix =? 0 then acc' else toString_digits fuel' radix (n / radix) acc'
  end.

(** [n.toString(radix)] for a non-negative integer [n]: its digits, most
    significant first, without leading zeros ("0" for 0). A number has at
    most log2 n + 1 digits in any radix from 2 on. *)
Definition Number_toString (n radix : N) : list N :=
  toString_digits (S (N.to_nat (N.log2 n))) radix n [].

(** The first [n] units of [pad] repeated; [cur] is what is left of the
    current copy. *)
Fixpoint fill (n : nat) (cur pad : list N) : list N :=
  match n with
  | O => []
  | S n' =>
      match cur with
      | c :: cur' => c :: fill n' cur' pad
      | [] =>
          match pad with
          | c :: cur' => c :: fill n' cur' pad
          | [] => []
          end
      end
  end.

(** [str.padStart(targetLength, padString)] *)
Definition padStart (str : list N) (targetLength : nat) (padString : list N)
    : list N :=
  if (targetLength <=? length str)%nat then str
  else fill (targetLength - length str) padString padString ++ str.

(** The loop of [stringToHex]: [i] is the index, [hex] the string built so
    far; [str !! i] is [str.charCodeAt(i)] under the guard [i < str.length].
    One unit of fuel per iteration. *)
Fixpoint stringToHex_loop (fuel : nat) (str : list N) (i : nat) (hex : list N)
    : list N :=
  match fuel with
  | O => hex
  | S fuel' =>
      match str !! i with
      | Some c =>
          stringToHex_loop fuel' str (S i)
            (hex ++ padStart (Number_toString c 16) 2 [48])
      | None => hex
      end
  end.

Definition stringToHex (str : list N) : list N :=
  stringToHex_loop (length str) str 0 [].

(** White space and line terminators, which parseInt skips at the start:
    TAB, LF, VT, FF, CR, SP, NBSP, U+1680, U+2000 to U+200A, LS, PS, U+202F,
    U+205F, U+3000 and U+FEFF. *)
Definition is_StrWhiteSpaceChar (c : N) : bool :=
  (9 <=? c) && (c <=? 13) || (c =? 32) || (c =? 160) || (c =? 5760)
  || (8192 <=? c) && (c <=? 8202) || (c =? 8232) || (c =? 8233)
  || (c =? 8239) || (c =? 8287) || (c =? 12288) || (c =? 65279).

Fixpoint trim_start (s : list N) : list N :=
  match s with
  | c :: s' => if is_StrWhiteSpaceChar c then trim_start s' else s
  | [] => []
  end.

(** The value of a digit: 0-9, a-z and A-Z for 10 to 35. *)
Definition digit_value (c : N) : option N :=
  if (48 <=? c) && (c <=? 57) then Some (c - 48)
  else if (97 <=? c) && (c <=? 122) then Some (c - 87)
  else if (65 <=? c) && (c <=? 90) then Some (c - 55)
  else None.

(** The value of the longest prefix of [s] made of digits of the radix;
    [acc] is the value read so far, [None] before the first digit. *)
Fixpoint parse_digits (radix : N) (s : list N) (acc : option N) : option N :=
  match s with
  | [] => acc
  | c :: s' =>
      match digit_value c with
      | Some d =>
          if d <? radix
          then parse_digits radix s' (Some (radix * nat_or_zero acc + d))
          else acc
      | None => acc
      end
  end.

(** [parseInt(string, 16)]: leading white space is skipped, then an
    optional sign, then an optional 0x or 0X; the digits that follow are
    read up to the first code unit that is not a hexadecimal digit; NaN
    when there is none. The value is exact for the strings of at most two
    code units that [hexToString] passes. *)
Definition parseInt16 (string : list N) : option Z :=
  let trimmed := trim_start string in
  let sign := match trimmed with 45 :: _ => (-1)%Z | _ => 1%Z end in
  let unsigned := match trimmed with
                  | 43 :: rest => rest
                  | 45 :: rest => rest
                  | _ => trimmed
                  end in
  let digits := match unsigned with
                | 48 :: 120 :: rest => rest
                | 48 :: 88 :: rest => rest
                | _ => unsigned
                end in
  match parse_digits 16 digits None with
  | None => None
  | Some m => Some (sign * Z.of_N m)%Z
  end.

(** [String.fromCharCode(x)]: the code unit x modulo 65536, and 0 for
    NaN. *)
Definition String_fromCharCode (x : option Z) : list N :=
  match x with
  | None => [0]
  | Some z => [Z.to_N (z mod 65536)]
  end.

(** [s.substr(start, length)] for a start inside the string. *)
Definition substr (s : list N) (start length : nat) : list N :=
  take length (drop start s).

(** The loop of [hexToString]: [i] advances by 2. *)
Fixpoint hexToString_loop (fuel : nat) (hex : list N) (i : nat) (str : list N)
    : list N :=
  match fuel with
  | O => str
  | S fuel' =>
      if (i <? length hex)%nat
      then hexToString_loop fuel' hex (i + 2)
             (str ++ String_fromCharCode (parseInt16 (substr hex i 2)))
      else str
  end.

(** The loop runs at most once per code unit of [hex]. *)
Definition hexToString (hex : list N) : list N :=
  hexToString_loop (length hex) hex 0 [].

(** A hexadecimal digit, and its lowercase form. *)
Definition is_hex_digit (c : N) : bool :=
  (48 <=? c) && (c <=? 57) || (97 <=? c) && (c <=? 102)
  || (65 <=? c) && (c <=? 70).

Definition is_lower_hex_digit (c : N) : bool :=
  (48 <=? c) && (c <=? 57) || (97 <=? c) && (c <=? 102).

Definition to_lower_hex (c : N) : N :=
  if (65 <=? c) && (c <=? 70) then c + 32 else c.

(** What one iteration of [stringToHex] appends for the code unit [c]. *)
Definition hex_of_unit (c : N) : list N :=
  padStart (Number_toString c 16) 2 [48].

(** What [hexToString] makes of a string, two code units at a time; a last
    single code unit is parsed on its own. *)
Fixpoint chars_of_hex (hex : list N) : list N :=
  match hex with
  | [] => []
  | [a] => String_fromCharCode (parseInt16 [a])
  | a :: b :: rest => String_fromCharCode (parseInt16 [a; b]) ++ chars_of_hex rest
  end.

End JS.

(** ** The result monad and the fold *)

Lemma bind_Ok_inv {A B} (m : result A) (f : A → result B) (b : B) :
  m ≫= f = Ok b → ∃ a, m = Ok a ∧ f a = Ok b.
Proof. destruct m as [a|msg]; simpl; [eauto | discriminate]. Qed.

Lemma List_fold_left_app {A B} (f : A → B → result A) acc l1 l2 :
  List_fold_left f acc (l1 ++ l2) =
  List_fold_left f acc l1 ≫= λ acc', List_fold_left f acc' l2.
Proof.
  revert acc. induction l1 as [|x l1 IH]; intros acc; simpl; [done|].
  destruct (f acc x) as [acc1|msg]; simpl; [apply IH | done].
Qed.

(** A property every successful step keeps is kept by a successful fold. *)
Lemma List_fold_left_preserves {A B} (P : A → Prop) (f : A → B → result A) l :
  (∀ a x a', P a → f a x = Ok a' → P a') →
  ∀ acc acc', P acc → List_fold_left f acc l = Ok acc' → P acc'.
Proof.
  intros Hstep. induction l as [|x l IH]; intros acc acc' HP; simpl.
  - by intros [= <-].
  - intros (a1 & Hx & Hrest)%bind_Ok_inv. eauto.
Qed.

(** The nested folds of [transfer] visit the triples of the call in order. *)
Lemma apply_txs_triples sender s from_ txs :
  apply_txs sender s (Build_transfer_param from_ txs) =
  run_triples sender s (map (λ tx, (from_, tx)) txs).
Proof.
  unfold apply_txs, run_triples. simpl. revert s.
  induction txs as [|tx txs IH]; intros s; simpl; [done|].
  destruct (do_transfer sender s from_ tx); simpl; [apply IH | done].
Qed.

Lemma fold_apply_txs_triples sender s params :
  List_fold_left (λ acc p, apply_txs sender acc p) s params =
  run_triples sender s (triples params).
Proof.
  revert s. induction params as [|[from_ txs] params IH]; intros s; [done|].
  unfold triples. simpl. fold (triples params).
  unfold run_triples at 1. rewrite List_fold_left_app.
  fold (run_triples sender s (map (λ tx, (from_, tx)) txs)).
  rewrite apply_txs_triples.
  destruct (run_triples sender s _) as [s1|msg]; simpl; [apply IH | done].
Qed.

(** ** One triple *)

Lemma Big_map_mem_true {K V} `{Countable K} (k : K) (m : gmap K V) :
  Big_map_mem k m = true ↔ is_Some (m !! k).
Proof.
  unfold Big_map_mem. destruct (m !! k) as [v|]; split; intros Hm; done.
Qed.

Lemma abs_sub (b a : N) : a ≤ b → abs (Z.of_N b - Z.of_N a) = b - a.
Proof.
  intros Hle. unfold abs.
  replace (Z.of_N b - Z.of_N a)%Z with (Z.of_N (b - a)) by lia.
  apply Zabs2N.id.
Qed.

(** The caller is neither the owner nor an operator: the triple fails. *)
Lemma do_transfer_unauthorized sender s from_ tx :
  ¬ authorized sender (s_operators s) from_ tx →
  do_transfer sender s from_ tx = Failed "FA2_NOT_OPERATOR".
Proof.
  intros Hno. unfold do_transfer, authorized in *.
  case_bool_decide as Hs; [|tauto].
  destruct (Big_map_mem _ _) eqn:Hmem; [|done].
  apply Big_map_mem_true in Hmem. tauto.
Qed.

(** The caller is authorized and the amount is not covered. *)
Lemma do_transfer_overdraw sender s from_ tx :
  authorized sender (s_operators s) from_ tx →
  holding (s_ledger s) from_ (tx_token_id tx) < tx_amount tx →
  do_transfer sender s from_ tx = Failed "FA2_INSUFFICIENT_BALANCE".
Proof.
  intros Hauth Hlt. unfold do_transfer, holding, Big_map_find_opt in *.
  assert ((if bool_decide (sender ≠ from_)
           then if negb (Big_map_mem (from_, (sender, tx_token_id tx)) (s_operators s))
                then failwith "FA2_NOT_OPERATOR" else Ok ()
           else Ok ()) = Ok ()) as ->.
  { case_bool_decide as Hs; [|done].
    destruct Hauth as [->|Hop%Big_map_mem_true]; [done|]. by rewrite Hop. }
  simpl. apply N.ltb_lt in Hlt. by rewrite Hlt.
Qed.

(** The caller is authorized and the amount is covered: the triple runs, and
    the ledger it leaves is the debit followed by the credit. *)
Lemma do_transfer_covered sender s from_ tx :
  authorized sender (s_operators s) from_ tx →
  tx_amount tx ≤ holding (s_ledger s) from_ (tx_token_id tx) →
  do_transfer sender s from_ tx =
  Ok (with_ledger s
        (credit (debit (s_ledger s) from_ (tx_token_id tx) (tx_amount tx))
           (tx_to_ tx) (tx_token_id tx) (tx_amount tx))).
Proof.
  intros Hauth Hle. unfold do_transfer.
  assert ((if bool_decide (sender ≠ from_)
           then if negb (Big_map_mem (from_, (sender, tx_token_id tx)) (s_operators s))
                then failwith "FA2_NOT_OPERATOR" else Ok ()
           else Ok ()) = Ok ()) as ->.
  { case_bool_decide as Hs; [|done].
    destruct Hauth as [->|Hop%Big_map_mem_true]; [done|]. by rewrite Hop. }
  unfold holding, Big_map_find_opt in *. simpl.
  apply N.ltb_ge in Hle as Hge. rewrite Hge. simpl.
  rewrite abs_sub by done.
  unfold with_ledger, credit, debit, holding, Big_map_remove, Big_map_update.
  do 2 f_equal.
  case_decide as Hz.
  - by rewrite Hz.
  - apply N.eqb_neq in Hz. by rewrite Hz.
Qed.

(** The three cases above are all there is. *)
Lemma do_transfer_cases sender s from_ tx :
  (¬ authorized sender (s_operators s) from_ tx ∧
   do_transfer sender s from_ tx = Failed "FA2_NOT_OPERATOR") ∨
  (authorized sender (s_operators s) from_ tx ∧
   holding (s_ledger s) from_ (tx_token_id tx) < tx_amount tx ∧
   do_transfer sender s from_ tx = Failed "FA2_INSUFFICIENT_BALANCE") ∨
  (authorized sender (s_operators s) from_ tx ∧
   tx_amount tx ≤ holding (s_ledger s) from_ (tx_token_id tx) ∧
   do_transfer sender s from_ tx =
   Ok (with_ledger s
         (credit (debit (s_ledger s) from_ (tx_token_id tx) (tx_amount tx))
            (tx_to_ tx) (tx_token_id tx) (tx_amount tx)))).
Proof.
  destruct (decide (authorized sender (s_operators s) from_ tx)) as [Ha|Hn].
  - right.
    destruct (N.lt_ge_cases (holding (s_ledger s) from_ (tx_token_id tx))
                (tx_amount tx)) as [Hlt|Hle].
    + left. auto using do_transfer_overdraw.
    + right. auto using do_transfer_covered.
  - left. auto using do_transfer_unauthorized.
Qed.

Lemma do_transfer_Ok_inv sender s from_ tx s' :
  do_transfer sender s from_ tx = Ok s' →
  authorized sender (s_operators s) from_ tx ∧
  tx_amount tx ≤ holding (s_ledger s) from_ (tx_token_id tx) ∧
  s' = with_ledger s
         (credit (debit (s_ledger s) from_ (tx_token_id tx) (tx_amount tx))
            (tx_to_ tx) (tx_token_id tx) (tx_amount tx)).
Proof.
  intros Hok.
  destruct (do_transfer_cases sender s from_ tx)
    as [[_ Hf]|[(_ & _ & Hf)|(Ha & Hle & Hr)]]; try congruence.
  rewrite Hr in Hok. by injection Hok as <-.
Qed.

(** ** The supply of a token *)

Lemma share_comm (t : token_id) (k1 k2 : address * token_id) (q1 q2 y : N) :
  share t k1 q1 + (share t k2 q2 + y) = share t k2 q2 + (share t k1 q1 + y).
Proof. lia. Qed.

Lemma total_supply_insert_fresh
    (t : token_id) (k : address * token_id) (q : N) (l : ledger) :
  l !! k = None →
  total_supply t (<[k:=q]> l) = share t k q + total_supply t l.
Proof.
  intros Hk. unfold total_supply.
  rewrite map_fold_insert_L; [done| |done].
  intros. apply share_comm.
Qed.

Lemma total_supply_remove
    (t : token_id) (k : address * token_id) (l : ledger) :
  total_supply t (delete k l) + share t k (nat_or_zero (l !! k)) =
  total_supply t l.
Proof.
  destruct (l !! k) as [q|] eqn:Hk; simpl.
  - rewrite <-(insert_delete_id l k q) at 2 by done.
    rewrite total_supply_insert_fresh by apply lookup_delete_eq. lia.
  - rewrite delete_id by done. unfold share. case_decide; lia.
Qed.

Lemma total_supply_store
    (t : token_id) (k : address * token_id) (q : N) (l : ledger) :
  total_supply t (<[k:=q]> l) + share t k (nat_or_zero (l !! k)) =
  share t k q + total_supply t l.
Proof.
  rewrite <-insert_delete_eq.
  rewrite total_supply_insert_fresh by apply lookup_delete_eq.
  rewrite <-(total_supply_remove t k l). lia.
Qed.

Lemma share_add (t : token_id) (k : address * token_id) (a b : N) :
  share t k (a + b) = share t k a + share t k b.
Proof. unfold share. case_decide; lia. Qed.

Lemma share_same_token (t : token_id) (o1 o2 : address) (u : token_id) (q : N) :
  share t (o1, u) q = share t (o2, u) q.
Proof. done. Qed.

(** A covered debit takes the amount out of the supply of its token. *)
Lemma total_supply_debit
    (t : token_id) (l : ledger) (owner : address) (u : token_id) (a : N) :
  a ≤ holding l owner u →
  total_supply t (debit l owner u a) + share t (owner, u) a = total_supply t l.
Proof.
  intros Hle. unfold debit.
  pose proof (total_supply_remove t (owner, u) l) as Hrem.
  pose proof (total_supply_store t (owner, u) (holding l owner u - a) l) as Hst.
  fold (holding l owner u) in Hrem, Hst.
  assert (share t (owner, u) (holding l owner u) =
          share t (owner, u) (holding l owner u - a) + share t (owner, u) a) as Hsplit.
  { rewrite <-share_add. f_equal. lia. }
  case_decide as Hz.
  - rewrite Hz in Hsplit. unfold share at 2 in Hsplit.
    destruct (decide _); lia.
  - lia.
Qed.

(** A credit puts the amount into the supply of its token. *)
Lemma total_supply_credit
    (t : token_id) (l : ledger) (owner : address) (u : token_id) (a : N) :
  total_supply t (credit l owner u a) = total_supply t l + share t (owner, u) a.
Proof.
  unfold credit.
  pose proof (total_supply_store t (owner, u) (holding l owner u + a) l) as Hst.
  fold (holding l owner u) in Hst. rewrite share_add in Hst. lia.
Qed.

Lemma do_transfer_supply sender s from_ tx s' (t : token_id) :
  do_transfer sender s from_ tx = Ok s' →
  total_supply t (s_ledger s') = total_supply t (s_ledger s).
Proof.
  intros (_ & Hle & ->)%do_transfer_Ok_inv. simpl.
  rewrite total_supply_credit.
  rewrite (share_same_token t (tx_to_ tx) from_).
  by apply total_supply_debit.
Qed.

Lemma run_triples_supply sender l s s' (t : token_id) :
  run_triples sender s l = Ok s' →
  total_supply t (s_ledger s') = total_supply t (s_ledger s).
Proof.
  unfold run_triples. intros Hrun.
  eapply (List_fold_left_preserves
            (λ s1, total_supply t (s_ledger s1) = total_supply t (s_ledger s)));
    [|reflexivity|exact Hrun].
  intros a x a' Ha Hstep. simpl in Hstep. rewrite <-Ha.
  by eapply do_transfer_supply.
Qed.

(** ** A Transfer call as a run of triples *)

Lemma run_triples_app sender s l1 l2 :
  run_triples sender s (l1 ++ l2) =
  run_triples sender s l1 ≫= λ s1, run_triples sender s1 l2.
Proof. apply List_fold_left_app. Qed.

Lemma run_triples_cons sender s from_ tx l :
  run_triples sender s ((from_, tx) :: l) =
  do_transfer sender s from_ tx ≫= λ s1, run_triples sender s1 l.
Proof. done. Qed.

Lemma call_Transfer sender params s :
  call sender (Transfer params) s =
  match run_triples sender s (triples params) with
  | Ok s' => (Ok [], s')
  | Failed msg => (Failed msg, s)
  end.
Proof.
  unfold call, main, transfer. rewrite fold_apply_txs_triples.
  by destruct (run_triples sender s (triples params)).
Qed.

Lemma call_Transfer_Ok_inv sender params s ops s' :
  call sender (Transfer params) s = (Ok ops, s') →
  ops = [] ∧ run_triples sender s (triples params) = Ok s'.
Proof.
  rewrite call_Transfer.
  destruct (run_triples sender s (triples params)); intros [= <- <-]; done.
Qed.

(** A triple only writes the ledger. *)
Lemma do_transfer_frame sender s from_ tx s' :
  do_transfer sender s from_ tx = Ok s' →
  s_operators s' = s_operators s ∧
  s_token_metadata s' = s_token_metadata s ∧
  s_next_token_id s' = s_next_token_id s.
Proof. by intros (_ & _ & ->)%do_transfer_Ok_inv. Qed.

Lemma run_triples_frame sender l s s' :
  run_triples sender s l = Ok s' →
  s_operators s' = s_operators s ∧
  s_token_metadata s' = s_token_metadata s ∧
  s_next_token_id s' = s_next_token_id s.
Proof.
  unfold run_triples. intros Hrun.
  eapply (List_fold_left_preserves
            (λ s1, s_operators s1 = s_operators s ∧
                   s_token_metadata s1 = s_token_metadata s ∧
                   s_next_token_id s1 = s_next_token_id s));
    [|done|exact Hrun].
  intros a x a' (Ho & Hm & Hn) Hstep. simpl in Hstep.
  apply do_transfer_frame in Hstep as (-> & -> & ->). done.
Qed.

(** The first triple that fails decides the outcome of the call. *)
Lemma call_Transfer_first_failure sender params s pre from_ tx post s1 msg :
  triples params = pre ++ (from_, tx) :: post →
  run_triples sender s pre = Ok s1 →
  do_transfer sender s1 from_ tx = Failed msg →
  call sender (Transfer params) s = (Failed msg, s).
Proof.
  intros Hsplit Hpre Hfail.
  rewrite call_Transfer, Hsplit, run_triples_app, Hpre. simpl.
  by rewrite run_triples_cons, Hfail.
Qed.

(** ** Transfer: conservation *)

(** A run succeeds exactly on the sequences that never overdraw. *)
Lemma run_triples_covered sender l s :
  covered sender s l ↔ ∃ s', run_triples sender s l = Ok s'.
Proof.
  revert s. induction l as [|[from_ tx] l IH]; intros s.
  - split; [by exists s | done].
  - rewrite run_triples_cons. simpl. split.
    + intros (Hauth & Hle & Hrest). rewrite do_transfer_covered by done.
      by apply IH.
    + intros [s' (s1 & Hstep & Hrest)%bind_Ok_inv].
      apply do_transfer_Ok_inv in Hstep as (Hauth & Hle & ->).
      split; [done|]. split; [done|]. apply IH. by exists s'.
Qed.

Lemma call_Transfer_supply sender params s out s' (t : token_id) :
  call sender (Transfer params) s = (Ok out, s') →
  total_supply t (s_ledger s') = total_supply t (s_ledger s).
Proof.
  intros [_ Hrun]%call_Transfer_Ok_inv. by eapply run_triples_supply.
Qed.

(** C1. A Transfer call whose triples never overdraw (the caller is
    authorized for each triple, and each debit is covered by the balance of
    the source at that point) succeeds, and in the storage it leaves the sum
    of the ledger quantities of every token-id is the sum in the storage
    before the call. *)
Theorem transfer_conserves_supply
    (sender : address) (params : list transfer_param) (s : storage) :
  covered sender s (triples params) →
  ∃ s', call sender (Transfer params) s = (Ok [], s') ∧
        ∀ t : token_id,
          total_supply t (s_ledger s') = total_supply t (s_ledger s).
Proof.
  intros [s' Hrun]%run_triples_covered. exists s'.
  assert (call sender (Transfer params) s = (Ok [], s')) as Hcall
    by (by rewrite call_Transfer, Hrun).
  split; [done|]. intros t. by eapply call_Transfer_supply.
Qed.

Lemma transfer_conserves_supply_witness :
  ∃ s', call alice
          (Transfer [Build_transfer_param alice
                       [Build_transfer_destination bob 0 1]]) alice_holds_0
        = (Ok [], s') ∧
        ∀ t : token_id,
          total_supply t (s_ledger s') = total_supply t (s_ledger alice_holds_0).
Proof.
  assert (covered alice alice_holds_0
            (triples [Build_transfer_param alice
                        [Build_transfer_destination bob 0 1]])) as Hcov.
  { split; [left; reflexivity|]. split; [vm_compute; discriminate|exact I]. }
  exact (transfer_conserves_supply alice
           [Build_transfer_param alice [Build_transfer_destination bob 0 1]]
           alice_holds_0 Hcov).
Defined.

(** ** Transfer: order *)

Lemma triples_app params1 params2 :
  triples (params1 ++ params2) = triples params1 ++ triples params2.
Proof. unfold triples. apply flat_map_app. Qed.

(** C8. The groups of a Transfer call are applied in the order given, and
    inside a group the triples in the order given: the call is the run of
    its triples, group after group; and the run of a sequence of triples
    hands every triple the storage that all the triples before it produced,
    so its checks, its debit and its credit see their effects. *)
Theorem transfer_applies_in_order
    (sender : address) (s : storage) (params : list transfer_param) :
  call sender (Transfer params) s =
    match run_triples sender s (triples params) with
    | Ok s' => (Ok [], s')
    | Failed msg => (Failed msg, s)
    end ∧
  (∀ groups1 from_ txs groups2,
     triples (groups1 ++ Build_transfer_param from_ txs :: groups2) =
     triples groups1 ++ map (λ tx, (from_, tx)) txs ++ triples groups2) ∧
  (∀ s0 pre from_ tx post,
     run_triples sender s0 (pre ++ (from_, tx) :: post) =
     s1 ← run_triples sender s0 pre;
     s2 ← do_transfer sender s1 from_ tx;
     run_triples sender s2 post).
Proof.
  split; [apply call_Transfer|]. split.
  - intros groups1 from_ txs groups2. by rewrite triples_app.
  - intros s0 pre from_ tx post. rewrite run_triples_app.
    destruct (run_triples sender s0 pre) as [s1|msg]; [|done].
    simpl. apply run_triples_cons.
Qed.

(** A later triple sees what an earlier one did: Alice holds one token 0
    and may give it to Bob or to Carol, but not to both in one call. *)
Example transfer_second_triple_sees_first :
  call alice
    (Transfer [Build_transfer_param alice
                 [Build_transfer_destination bob 0 1;
                  Build_transfer_destination carol 0 1]]) alice_holds_0
  = (Failed "FA2_INSUFFICIENT_BALANCE", alice_holds_0) ∧
  (call alice
     (Transfer [Build_transfer_param alice
                  [Build_transfer_destination carol 0 1]]) alice_holds_0).1
  = Ok [].
Proof. split; vm_compute; reflexivity. Qed.

(** ** Transfer: failures *)

(** C2, counterexample. Carol, who is neither Alice nor her operator, asks
    for 2 of Alice's token 0 while Alice holds 1: the amount exceeds the
    balance and no triple comes before, yet the call reports
    FA2_NOT_OPERATOR, because authorization is checked first. *)
Lemma overdraw_reports_insufficient_balance_fails :
  ¬ overdraw_reports_insufficient_balance.
Proof.
  intros Hclaim.
  specialize (Hclaim carol alice_holds_0
    [Build_transfer_param alice [Build_transfer_destination bob 0 2]]
    [] [] alice (Build_transfer_destination bob 0 2) alice_holds_0
    eq_refl eq_refl).
  assert (call carol
    (Transfer [Build_transfer_param alice [Build_transfer_destination bob 0 2]])
    alice_holds_0 = (Failed "FA2_NOT_OPERATOR", alice_holds_0)) as Hrun
    by (vm_compute; reflexivity).
  rewrite Hrun in Hclaim.
  assert (holding (s_ledger alice_holds_0) alice 0 < 2) as Hlt
    by (vm_compute; reflexivity).
  specialize (Hclaim Hlt). discriminate Hclaim.
Qed.

(** C2, amended. A triple for which the caller passes the authorization
    check, whose amount exceeds the balance of the source at the point the
    triple is processed (an absent entry read as 0), and whose earlier
    triples all pass their checks, makes the whole call fail with
    FA2_INSUFFICIENT_BALANCE, and the storage is the one before the call. *)
Theorem transfer_overdraw_aborts
    (sender : address) (s : storage) (params : list transfer_param)
    (pre post : list (address * transfer_destination))
    (from_ : address) (tx : transfer_destination) (s1 : storage) :
  triples params = pre ++ (from_, tx) :: post →
  run_triples sender s pre = Ok s1 →
  authorized sender (s_operators s1) from_ tx →
  holding (s_ledger s1) from_ (tx_token_id tx) < tx_amount tx →
  call sender (Transfer params) s = (Failed "FA2_INSUFFICIENT_BALANCE", s).
Proof.
  intros Hsplit Hpre Hauth Hlt.
  eapply call_Transfer_first_failure; [done..|].
  by apply do_transfer_overdraw.
Qed.

Lemma transfer_overdraw_aborts_witness :
  call alice
    (Transfer [Build_transfer_param alice
                 [Build_transfer_destination bob 0 1;
                  Build_transfer_destination carol 0 1]]) alice_holds_0
  = (Failed "FA2_INSUFFICIENT_BALANCE", alice_holds_0).
Proof.
  assert (run_triples alice alice_holds_0
            [(alice, Build_transfer_destination bob 0 1)] = Ok bob_holds_0)
    as Hpre by (vm_compute; reflexivity).
  assert (authorized alice (s_operators bob_holds_0) alice
            (Build_transfer_destination carol 0 1)) as Hauth
    by (left; reflexivity).
  assert (holding (s_ledger bob_holds_0) alice
            (tx_token_id (Build_transfer_destination carol 0 1))
          < tx_amount (Build_transfer_destination carol 0 1)) as Hlt
    by (vm_compute; reflexivity).
  exact (transfer_overdraw_aborts alice alice_holds_0
           [Build_transfer_param alice
              [Build_transfer_destination bob 0 1;
               Build_transfer_destination carol 0 1]]
           [(alice, Build_transfer_destination bob 0 1)] []
           alice (Build_transfer_destination carol 0 1) bob_holds_0
           eq_refl Hpre Hauth Hlt).
Defined.

(** An unauthorized triple anywhere in the call makes the call fail. *)
Lemma call_Transfer_unauthorized sender s params pre from_ tx post :
  triples params = pre ++ (from_, tx) :: post →
  ¬ authorized sender (s_operators s) from_ tx →
  ∃ msg, call sender (Transfer params) s = (Failed msg, s).
Proof.
  intros Hsplit Hno.
  destruct (run_triples sender s pre) as [s1|msg] eqn:Hpre.
  - exists "FA2_NOT_OPERATOR".
    eapply call_Transfer_first_failure; [done..|].
    apply do_transfer_unauthorized.
    apply run_triples_frame in Hpre as (-> & _). done.
  - exists msg. by rewrite call_Transfer, Hsplit, run_triples_app, Hpre.
Qed.

(** C3, counterexample. Alice sends two groups: first 1 of her token 0 to
    Bob, which she does not hold, then a triple from Bob's holdings, for
    which she is neither owner nor operator. The call holds an unauthorized
    triple, yet it reports FA2_INSUFFICIENT_BALANCE: the first failing
    triple decides the error. *)
Lemma unauthorized_reports_not_operator_fails :
  ¬ unauthorized_reports_not_operator.
Proof.
  intros Hclaim.
  destruct (Hclaim alice initial_storage
    [Build_transfer_param alice [Build_transfer_destination bob 0 1];
     Build_transfer_param bob [Build_transfer_destination alice 0 0]]
    bob (Build_transfer_destination alice 0 0)) as [_ Hfail].
  { apply elem_of_cons. right. apply elem_of_cons. by left. }
  assert (¬ authorized alice (s_operators initial_storage) bob
            (Build_transfer_destination alice 0 0)) as Hno.
  { intros [Heq|[u Hu]]; [discriminate Heq|].
    simpl in Hu. by rewrite lookup_empty in Hu. }
  specialize (Hfail Hno).
  assert (call alice
    (Transfer
       [Build_transfer_param alice [Build_transfer_destination bob 0 1];
        Build_transfer_param bob [Build_transfer_destination alice 0 0]])
    initial_storage = (Failed "FA2_INSUFFICIENT_BALANCE", initial_storage))
    as Hrun by (vm_compute; reflexivity).
  rewrite Hrun in Hfail. discriminate Hfail.
Qed.

(** C3, amended. For every triple of a Transfer call: when the caller is
    the source owner of its group, or the operator store holds the key
    (source owner, (caller, token-id)), the triple does not fail with
    FA2_NOT_OPERATOR; otherwise the whole call fails and the storage is left
    as it was before the call, and the error is FA2_NOT_OPERATOR whenever
    all earlier triples of the call pass their checks. *)
Theorem transfer_authorization
    (sender : address) (s : storage) (params : list transfer_param)
    (pre post : list (address * transfer_destination))
    (from_ : address) (tx : transfer_destination) :
  triples params = pre ++ (from_, tx) :: post →
  (authorized sender (s_operators s) from_ tx →
   ∀ s1, s_operators s1 = s_operators s →
     do_transfer sender s1 from_ tx ≠ Failed "FA2_NOT_OPERATOR") ∧
  (¬ authorized sender (s_operators s) from_ tx →
   (∃ msg, call sender (Transfer params) s = (Failed msg, s)) ∧
   (∀ s1, run_triples sender s pre = Ok s1 →
      call sender (Transfer params) s = (Failed "FA2_NOT_OPERATOR", s))).
Proof.
  intros Hsplit. split.
  - intros Hauth s1 Hops. rewrite <-Hops in Hauth.
    destruct (do_transfer_cases sender s1 from_ tx)
      as [[Hno _]|[(_ & _ & ->)|(_ & _ & ->)]]; [done|discriminate..].
  - intros Hno. split; [by eapply call_Transfer_unauthorized|].
    intros s1 Hpre. eapply call_Transfer_first_failure; [done..|].
    apply do_transfer_unauthorized.
    apply run_triples_frame in Hpre as (-> & _). done.
Qed.

Lemma transfer_authorization_witness :
  (authorized carol (s_operators bob_holds_0) bob
     (Build_transfer_destination carol 0 1) →
   ∀ s1, s_operators s1 = s_operators bob_holds_0 →
     do_transfer carol s1 bob (Build_transfer_destination carol 0 1)
     ≠ Failed "FA2_NOT_OPERATOR") ∧
  (¬ authorized carol (s_operators bob_holds_0) bob
       (Build_transfer_destination carol 0 1) →
   (∃ msg,
      call carol
        (Transfer [Build_transfer_param bob
                     [Build_transfer_destination carol 0 1]]) bob_holds_0
      = (Failed msg, bob_holds_0)) ∧
   (∀ s1, run_triples carol bob_holds_0 [] = Ok s1 →
      call carol
        (Transfer [Build_transfer_param bob
                     [Build_transfer_destination carol 0 1]]) bob_holds_0
      = (Failed "FA2_NOT_OPERATOR", bob_holds_0))).
Proof.
  exact (transfer_authorization carol bob_holds_0
           [Build_transfer_param bob [Build_transfer_destination carol 0 1]]
           [] [] bob (Build_transfer_destination carol 0 1) eq_refl).
Defined.

(** ** The ledger holds no zero *)

Lemma debit_positive (l : ledger) (owner : address) (t : token_id) (a : N) :
  ledger_positive l → ledger_positive (debit l owner t a).
Proof.
  intros Hpos k q. unfold debit. case_decide as Hz.
  - intros [_ Hk]%lookup_delete_Some. eauto.
  - intros [[<- <-]|[_ Hk]]%lookup_insert_Some; [lia | eauto].
Qed.

Lemma credit_positive (l : ledger) (owner : address) (t : token_id) (a : N) :
  0 < a → ledger_positive l → ledger_positive (credit l owner t a).
Proof.
  intros Ha Hpos k q. unfold credit.
  intros [[<- <-]|[_ Hk]]%lookup_insert_Some; [lia | eauto].
Qed.

(** A triple of positive amount keeps the ledger free of zeros. *)
Lemma do_transfer_positive sender s from_ tx s' :
  0 < tx_amount tx →
  do_transfer sender s from_ tx = Ok s' →
  ledger_positive (s_ledger s) → ledger_positive (s_ledger s').
Proof.
  intros Ha (_ & _ & ->)%do_transfer_Ok_inv Hpos. simpl.
  by apply credit_positive, debit_positive.
Qed.

Lemma mint_positive sender param s :
  ledger_positive (s_ledger s) →
  ledger_positive (s_ledger (call sender (Mint param) s).2).
Proof.
  intros Hpos k q. simpl. unfold Big_map_update.
  intros [[<- <-]|[_ Hk]]%lookup_insert_Some; [lia | eauto].
Qed.

Lemma run_triples_positive sender l s s' :
  Forall (λ ftx : address * transfer_destination, 0 < tx_amount ftx.2) l →
  run_triples sender s l = Ok s' →
  ledger_positive (s_ledger s) → ledger_positive (s_ledger s').
Proof.
  intros Hall. revert s. induction Hall as [|[from_ tx] l Ha _ IH]; intros s.
  - by intros [= <-].
  - rewrite run_triples_cons. intros (s1 & Hstep & Hrest)%bind_Ok_inv Hpos.
    eapply IH; [done|]. by eapply do_transfer_positive.
Qed.

(** X6. Every call keeps the ledger free of zeros, provided the triples of
    a Transfer all move a positive amount. *)
Lemma call_positive sender p s :
  (∀ params, p = Transfer params →
     Forall (λ ftx : address * transfer_destination, 0 < tx_amount ftx.2)
       (triples params)) →
  ledger_positive (s_ledger s) →
  ledger_positive (s_ledger (call sender p s).2).
Proof.
  intros Hamounts Hpos. destruct p as [params|param|params|param].
  - rewrite call_Transfer.
    destruct (run_triples sender s (triples params)) as [s1|msg] eqn:Hrun;
      [|done].
    eapply run_triples_positive; [|done..]. by apply Hamounts.
  - done.
  - unfold call, main, update_operators.
    by destruct (List_fold_left _ _ _).
  - by apply mint_positive.
Qed.

(** C4, the input on which the code leaves a zero in the ledger. At
    origination the ledger is empty, so every entry is positive. Alice
    transfers amount 0 of token 0 to Bob: the call succeeds, and the ledger
    it leaves maps (Bob, 0) to 0. The debit of [do_transfer] removes an
    entry that reaches 0; its credit stores old + amount whatever it is. *)
Theorem transfer_zero_amount_stores_zero :
  ledger_positive (s_ledger initial_storage) ∧
  call alice
    (Transfer [Build_transfer_param alice [Build_transfer_destination bob 0 0]])
    initial_storage
  = (Ok [], bob_holds_nothing) ∧
  s_ledger bob_holds_nothing !! (bob, 0) = Some 0 ∧
  ¬ ledger_positive (s_ledger bob_holds_nothing).
Proof.
  split; [|split; [|split]].
  - intros k q Hk. simpl in Hk. by rewrite lookup_empty in Hk.
  - vm_compute. reflexivity.
  - vm_compute. reflexivity.
  - intros Hpos. specialize (Hpos (bob, 0) 0).
    assert (s_ledger bob_holds_nothing !! (bob, 0) = Some 0) as Hk
      by (vm_compute; reflexivity).
    specialize (Hpos Hk). lia.
Qed.

(** ** Mint *)

(** C5. From a storage whose counter is n, a Mint call with destination d
    and payload m succeeds; the ledger it leaves is the old one with (d, n)
    set to 1, the metadata store maps n to (token_id = n, token_info = m),
    and the counter is n + 1. A second Mint then takes the id n + 1, which
    differs from n: both ledger entries hold 1, both metadata entries are
    there, and the counter is n + 2. *)
Theorem mint_allocates_next_id
    (sender : address) (s : storage) (d : address) (m : token_info) :
  let n := s_next_token_id s in
  ∃ s1,
    call sender (Mint (Build_mint_param d m)) s = (Ok [], s1) ∧
    s_ledger s1 = <[(d, n) := 1]> (s_ledger s) ∧
    s_ledger s1 !! (d, n) = Some 1 ∧
    s_token_metadata s1 !! n =
      Some {| tm_token_id := n; tm_token_info := m |} ∧
    s_next_token_id s1 = n + 1 ∧
    ∀ (sender2 d2 : address) (m2 : token_info),
    ∃ s2,
      call sender2 (Mint (Build_mint_param d2 m2)) s1 = (Ok [], s2) ∧
      n ≠ n + 1 ∧
      s_ledger s2 !! (d, n) = Some 1 ∧
      s_ledger s2 !! (d2, n + 1) = Some 1 ∧
      s_token_metadata s2 !! n =
        Some {| tm_token_id := n; tm_token_info := m |} ∧
      s_token_metadata s2 !! (n + 1) =
        Some {| tm_token_id := n + 1; tm_token_info := m2 |} ∧
      s_next_token_id s2 = n + 2.
Proof.
  intros n. eexists. split; [reflexivity|]. simpl. unfold Big_map_update.
  fold n. split; [done|]. split; [apply lookup_insert_eq|].
  split; [apply lookup_insert_eq|]. split; [done|].
  intros sender2 d2 m2. eexists. split; [reflexivity|]. simpl.
  unfold Big_map_update. fold n.
  assert (n ≠ n + 1) as Hne by lia.
  split; [done|]. split.
  { rewrite lookup_insert_ne by congruence. apply lookup_insert_eq. }
  split; [apply lookup_insert_eq|]. split.
  { rewrite lookup_insert_ne by congruence. apply lookup_insert_eq. }
  split; [apply lookup_insert_eq|]. lia.
Qed.

(** ** Update_operators *)

Lemma apply_operator_update_owner (sender : address) (ops : operators)
    (d : update_operator_param) :
  directive_owner d = sender →
  apply_operator_update sender ops d =
  Ok (match d with
      | Add_operator op =>
          <[(op_owner op, (op_operator op, op_token_id op)) := ()]> ops
      | Remove_operator op =>
          delete (op_owner op, (op_operator op, op_token_id op)) ops
      end).
Proof.
  intros Hown. destruct d as [op|op]; simpl in *;
    (case_bool_decide; [congruence|done]).
Qed.

Lemma apply_operator_update_not_owner (sender : address) (ops : operators)
    (d : update_operator_param) :
  directive_owner d ≠ sender →
  apply_operator_update sender ops d = Failed "FA2_NOT_OWNER".
Proof.
  intros Hown. destruct d as [op|op]; simpl in *;
    (case_bool_decide; [done|congruence]).
Qed.

Lemma fold_operator_update_not_owner (sender : address)
    (params : list update_operator_param) (d : update_operator_param) :
  d ∈ params → directive_owner d ≠ sender →
  ∀ ops : operators,
    List_fold_left (λ acc p, apply_operator_update sender acc p) ops params
    = Failed "FA2_NOT_OWNER".
Proof.
  intros Hin Hown. induction params as [|x params IH]; intros ops.
  - by apply elem_of_nil in Hin.
  - simpl. destruct (decide (directive_owner x = sender)) as [Hx|Hx].
    + rewrite apply_operator_update_owner by done. simpl. apply IH.
      apply elem_of_cons in Hin as [->|Hin]; done.
    + by rewrite apply_operator_update_not_owner.
Qed.

Lemma call_Update_operators sender params s :
  call sender (Update_operators params) s =
  match List_fold_left (λ acc p, apply_operator_update sender acc p)
          (s_operators s) params with
  | Ok ops => (Ok [], with_operators s ops)
  | Failed msg => (Failed msg, s)
  end.
Proof.
  unfold call, main, update_operators.
  by destruct (List_fold_left _ _ _).
Qed.

(** C6. For every directive of an Update_operators call, Add_operator or
    Remove_operator alike: when the caller differs from the owner the
    directive names, the whole call fails with FA2_NOT_OWNER and the storage
    is unchanged; the directive itself is applied only for a caller equal to
    its owner, and a call that succeeds has the caller as the owner of each
    of its directives. *)
Theorem update_operators_owner_only
    (sender : address) (s : storage) (params : list update_operator_param)
    (d : update_operator_param) :
  d ∈ params →
  (directive_owner d ≠ sender →
   call sender (Update_operators params) s = (Failed "FA2_NOT_OWNER", s)) ∧
  (∀ ops ops' : operators,
     apply_operator_update sender ops d = Ok ops' →
     directive_owner d = sender) ∧
  (∀ out s',
     call sender (Update_operators params) s = (Ok out, s') →
     directive_owner d = sender).
Proof.
  intros Hin.
  assert (directive_owner d ≠ sender →
          call sender (Update_operators params) s = (Failed "FA2_NOT_OWNER", s))
    as Hfail.
  { intros Hown. rewrite call_Update_operators.
    by rewrite (fold_operator_update_not_owner sender params d). }
  split; [done|]. split.
  - intros ops ops' Hok.
    destruct (decide (directive_owner d = sender)) as [|Hown]; [done|].
    rewrite apply_operator_update_not_owner in Hok by done. discriminate.
  - intros out s' Hok.
    destruct (decide (directive_owner d = sender)) as [|Hown]; [done|].
    rewrite Hfail in Hok by done. discriminate.
Qed.

Lemma update_operators_owner_only_witness :
  (directive_owner (Remove_operator (Build_update_operator alice bob 0)) ≠ carol →
   call carol
     (Update_operators [Remove_operator (Build_update_operator alice bob 0)])
     bob_operates_0
   = (Failed "FA2_NOT_OWNER", bob_operates_0)) ∧
  (∀ ops ops' : operators,
     apply_operator_update carol ops
       (Remove_operator (Build_update_operator alice bob 0)) = Ok ops' →
     directive_owner (Remove_operator (Build_update_operator alice bob 0))
     = carol) ∧
  (∀ out s',
     call carol
       (Update_operators [Remove_operator (Build_update_operator alice bob 0)])
       bob_operates_0 = (Ok out, s') →
     directive_owner (Remove_operator (Build_update_operator alice bob 0))
     = carol).
Proof.
  assert (Remove_operator (Build_update_operator alice bob 0)
          ∈ [Remove_operator (Build_update_operator alice bob 0)]) as Hin
    by (apply elem_of_cons; left; reflexivity).
  exact (update_operators_owner_only carol bob_operates_0
           [Remove_operator (Build_update_operator alice bob 0)]
           (Remove_operator (Build_update_operator alice bob 0)) Hin).
Defined.

(** ** Balance_of *)

Lemma lookup_map {A B} (f : A → B) (l : list A) (i : nat) :
  map f l !! i = f <$> l !! i.
Proof.
  revert i. induction l as [|x l IH]; intros [|i]; simpl; done.
Qed.

(** C7. A Balance_of call never fails and leaves the storage as it was; it
    emits exactly one operation, the delivery of the response list (with 0
    mutez) to the callback the caller supplied; the response list is as long
    as the request list, and its i-th element pairs the i-th request with
    the ledger quantity of (owner, token-id), 0 when the ledger has no such
    entry. *)
Theorem balance_of_answers
    (sender : address) (s : storage) (param : balance_of_param) :
  ∃ responses : list balance_of_response,
    call sender (Balance_of param) s =
      (Ok [Transaction responses 0 (callback param)], s) ∧
    length responses = length (requests param) ∧
    (∀ (i : nat) (req : balance_of_request),
       requests param !! i = Some req →
       responses !! i =
         Some {| request := req;
                 balance := match s_ledger s !! (req_owner req, req_token_id req) with
                            | Some q => q
                            | None => 0
                            end |}) ∧
    responses = map (response_for (s_ledger s)) (requests param).
Proof.
  eexists. split; [reflexivity|]. split; [apply length_map|]. split; [|done].
  intros i req Hreq. rewrite lookup_map, Hreq. done.
Qed.

(** ** Operators: add, remove *)

(** C9, counterexample. Bob is already Alice's operator for token 0. Alice
    adds him and then removes him in one call: the entry is absent
    afterwards, while it was present before the add. *)
Lemma add_then_remove_restores_fails : ¬ add_then_remove_restores.
Proof.
  intros Hclaim.
  destruct (Hclaim bob_operates_0 alice bob 0) as [Hsame _].
  assert (s_operators
            (call alice
               (Update_operators
                  [Add_operator (Build_update_operator alice bob 0);
                   Remove_operator (Build_update_operator alice bob 0)])
               bob_operates_0).2 !! (alice, (bob, 0)) = None) as Hafter
    by (vm_compute; reflexivity).
  assert (s_operators bob_operates_0 !! (alice, (bob, 0)) = Some ()) as Hbefore
    by (vm_compute; reflexivity).
  rewrite Hafter, Hbefore in Hsame. discriminate Hsame.
Qed.

(** C9, amended. The owner o adds the operator entry (o, p, t) and then
    removes it, in one call or in two consecutive calls: both calls succeed
    and leave the operator store with that entry removed and every other
    entry as it was, so the entry is absent; this is the store before the
    add whenever the entry was absent before the add. Adding twice leaves
    the same storage as adding once, and removing twice the same as removing
    once, in one call or in consecutive calls. *)
Theorem add_remove_operator
    (s : storage) (o p : address) (t : token_id) :
  let d := Build_update_operator o p t in
  let k := (o, (p, t)) in
  let add := Add_operator d in
  let rem := Remove_operator d in
  call o (Update_operators [add; rem]) s
    = (Ok [], with_operators s (delete k (s_operators s))) ∧
  call o (Update_operators [rem]) (call o (Update_operators [add]) s).2
    = (Ok [], with_operators s (delete k (s_operators s))) ∧
  delete k (s_operators s) !! k = None ∧
  (s_operators s !! k = None → delete k (s_operators s) = s_operators s) ∧
  call o (Update_operators [add; add]) s = call o (Update_operators [add]) s ∧
  call o (Update_operators [add]) (call o (Update_operators [add]) s).2
    = call o (Update_operators [add]) s ∧
  call o (Update_operators [rem; rem]) s = call o (Update_operators [rem]) s ∧
  call o (Update_operators [rem]) (call o (Update_operators [rem]) s).2
    = call o (Update_operators [rem]) s.
Proof.
  intros d k add rem.
  assert (∀ ops : operators,
            apply_operator_update o ops add = Ok (<[k := ()]> ops)) as Hadd.
  { intros ops. by rewrite apply_operator_update_owner. }
  assert (∀ ops : operators,
            apply_operator_update o ops rem = Ok (delete k ops)) as Hrem.
  { intros ops. by rewrite apply_operator_update_owner. }
  clearbody add rem.
  rewrite !call_Update_operators. cbn [List_fold_left].
  repeat progress
    (rewrite ?Hadd, ?Hrem;
     cbn [mbind result_bind snd with_operators s_operators s_ledger
          s_token_metadata s_next_token_id]).
  rewrite delete_insert_eq, insert_insert_eq, delete_delete_eq.
  repeat split; try done.
  - apply lookup_delete_eq.
  - apply delete_id.
Qed.

(** ** What each entrypoint leaves alone *)

(** C10. Whatever the storage and the arguments, the storage a Transfer call
    leaves has the operators, token_metadata and next_token_id of the
    storage before it, in particular when the call succeeds; the storage an
    Update_operators call leaves has the ledger, token_metadata and
    next_token_id of the storage before it; a Balance_of call leaves the
    storage itself, all four fields. *)
Theorem entrypoints_frame (sender : address) (s : storage) :
  (∀ params out s',
     call sender (Transfer params) s = (out, s') →
     s_operators s' = s_operators s ∧
     s_token_metadata s' = s_token_metadata s ∧
     s_next_token_id s' = s_next_token_id s) ∧
  (∀ params out s',
     call sender (Update_operators params) s = (out, s') →
     s_ledger s' = s_ledger s ∧
     s_token_metadata s' = s_token_metadata s ∧
     s_next_token_id s' = s_next_token_id s) ∧
  (∀ param out s',
     call sender (Balance_of param) s = (out, s') →
     s' = s ∧
     s_ledger s' = s_ledger s ∧
     s_operators s' = s_operators s ∧
     s_token_metadata s' = s_token_metadata s ∧
     s_next_token_id s' = s_next_token_id s).
Proof.
  split; [|split].
  - intros params out s'. rewrite call_Transfer.
    destruct (run_triples sender s (triples params)) as [s1|msg] eqn:Hrun;
      intros [= <- <-]; [|done].
    by apply run_triples_frame in Hrun.
  - intros params out s'. rewrite call_Update_operators.
    destruct (List_fold_left _ _ _) as [ops|msg]; intros [= <- <-]; done.
  - intros param out s'. intros [= <- <-]. done.
Qed.

(** ** The scenario of the spec *)

(** Alice mints token 0 and gives it to Bob; she then tries to move it out
    of Bob's holdings, for which she is neither owner nor operator. *)
Example scenario_mint_transfer_unauthorized :
  call alice (Mint (Build_mint_param alice {[ "naplps" := [Byte.xab] ]}))
    initial_storage
  = (Ok [], minted_0) ∧
  call alice
    (Transfer [Build_transfer_param alice [Build_transfer_destination bob 0 1]])
    minted_0
  = (Ok [], moved_0) ∧
  s_ledger moved_0 !! (alice, 0) = None ∧
  call alice
    (Transfer [Build_transfer_param bob [Build_transfer_destination alice 0 1]])
    moved_0
  = (Failed "FA2_NOT_OPERATOR", moved_0).
Proof. split; [|split; [|split]]; vm_compute; reflexivity. Qed.

(** * Further properties of the contract *)

(** ** What a triple does to the holdings *)

Lemma holding_debit (l : ledger) (o o' : address) (t t' a : N) :
  holding (debit l o t a) o' t' =
  if decide ((o, t) = (o', t')) then holding l o t - a else holding l o' t'.
Proof.
  unfold debit. case_decide as Hz; unfold holding at 1.
  - rewrite lookup_delete. case_decide as Hk; [by rewrite Hz|done].
  - rewrite lookup_insert. by case_decide.
Qed.

Lemma holding_credit (l : ledger) (o o' : address) (t t' a : N) :
  holding (credit l o t a) o' t' =
  if decide ((o, t) = (o', t')) then holding l o t + a else holding l o' t'.
Proof.
  unfold credit. unfold holding at 1. rewrite lookup_insert. by case_decide.
Qed.

(** X1. A triple that succeeds moves its amount and nothing else: the
    amount was covered by the holding of the source; every holding other
    than the source's and the destination's holding of the triple's token
    is as before; when source and destination differ, the source holds the
    amount less and the destination the amount more; when they are the same
    address, the holding is as before. Holdings are ledger quantities, an
    absent entry read as 0. *)
Theorem do_transfer_moves_holdings
    (sender : address) (s s' : storage) (from_ : address)
    (tx : transfer_destination) :
  do_transfer sender s from_ tx = Ok s' →
  let t := tx_token_id tx in
  let a := tx_amount tx in
  a ≤ holding (s_ledger s) from_ t ∧
  (∀ (o : address) (u : token_id),
     (o, u) ≠ (from_, t) → (o, u) ≠ (tx_to_ tx, t) →
     holding (s_ledger s') o u = holding (s_ledger s) o u) ∧
  (from_ ≠ tx_to_ tx →
   holding (s_ledger s') from_ t + a = holding (s_ledger s) from_ t ∧
   holding (s_ledger s') (tx_to_ tx) t = holding (s_ledger s) (tx_to_ tx) t + a) ∧
  (from_ = tx_to_ tx →
   holding (s_ledger s') from_ t = holding (s_ledger s) from_ t).
Proof.
  intros (_ & Hle & ->)%do_transfer_Ok_inv t a. subst t a.
  split; [done|]. simpl. split; [|split].
  - intros o u Hfrom Hto. rewrite !holding_credit, !holding_debit.
    repeat case_decide; congruence.
  - intros Hne. rewrite !holding_credit, !holding_debit.
    repeat case_decide; try congruence; lia.
  - intros <-. rewrite !holding_credit, !holding_debit.
    repeat case_decide; try congruence; lia.
Qed.

Lemma do_transfer_moves_holdings_witness :
  1 ≤ holding (s_ledger alice_holds_0) alice 0 ∧
  (∀ (o : address) (u : token_id),
     (o, u) ≠ (alice, 0) → (o, u) ≠ (bob, 0) →
     holding (s_ledger bob_holds_0) o u = holding (s_ledger alice_holds_0) o u) ∧
  (alice ≠ bob →
   holding (s_ledger bob_holds_0) alice 0 + 1
   = holding (s_ledger alice_holds_0) alice 0 ∧
   holding (s_ledger bob_holds_0) bob 0
   = holding (s_ledger alice_holds_0) bob 0 + 1) ∧
  (alice = bob →
   holding (s_ledger bob_holds_0) alice 0
   = holding (s_ledger alice_holds_0) alice 0).
Proof.
  assert (do_transfer alice alice_holds_0 alice
            (Build_transfer_destination bob 0 1) = Ok bob_holds_0) as Hrun
    by (vm_compute; reflexivity).
  exact (do_transfer_moves_holdings alice alice_holds_0 bob_holds_0 alice
           (Build_transfer_destination bob 0 1) Hrun).
Defined.

(** ** Operators: whose entries a call can touch *)

Lemma apply_operator_update_other_owner
    (sender : address) (ops ops' : operators) (d : update_operator_param)
    (o p : address) (t : token_id) :
  apply_operator_update sender ops d = Ok ops' →
  o ≠ sender →
  ops' !! (o, (p, t)) = ops !! (o, (p, t)).
Proof.
  intros Hok Hne.
  destruct (decide (directive_owner d = sender)) as [Hown|Hown].
  - rewrite apply_operator_update_owner in Hok by done.
    injection Hok as <-. destruct d as [op|op]; simpl in Hown.
    + apply lookup_insert_ne. congruence.
    + apply lookup_delete_ne. congruence.
  - rewrite apply_operator_update_not_owner in Hok by done. discriminate.
Qed.

(** X2. An Update_operators call, whatever its directives and whether it
    succeeds or fails, leaves every operator entry of another owner than the
    caller as it was: nobody can grant or revoke rights over holdings that
    are not their own. *)
Theorem update_operators_touches_own_entries_only
    (sender : address) (s : storage) (params : list update_operator_param)
    (o p : address) (t : token_id) :
  o ≠ sender →
  s_operators (call sender (Update_operators params) s).2 !! (o, (p, t))
  = s_operators s !! (o, (p, t)).
Proof.
  intros Hne. rewrite call_Update_operators.
  destruct (List_fold_left _ _ _) as [ops|msg] eqn:Hfold; [|done]. simpl.
  eapply (List_fold_left_preserves
            (λ ops1 : operators,
               ops1 !! (o, (p, t)) = s_operators s !! (o, (p, t))));
    [|reflexivity|exact Hfold].
  intros ops1 d ops2 Hinv Hstep. simpl in Hstep. rewrite <-Hinv.
  by eapply apply_operator_update_other_owner.
Qed.

Lemma update_operators_touches_own_entries_only_witness :
  s_operators
    (call carol
       (Update_operators [Remove_operator (Build_update_operator carol bob 0)])
       bob_operates_0).2 !! (alice, (bob, 0))
  = s_operators bob_operates_0 !! (alice, (bob, 0)).
Proof.
  assert (alice ≠ carol) as Hne by discriminate.
  exact (update_operators_touches_own_entries_only carol bob_operates_0
           [Remove_operator (Build_update_operator carol bob 0)]
           alice bob 0 Hne).
Defined.

(** ** Delegation from grant to revocation *)

Lemma call_Update_operators_single (o : address) (s : storage)
    (d : update_operator_param) :
  directive_owner d = o →
  call o (Update_operators [d]) s =
  (Ok [],
   with_operators s
     match d with
     | Add_operator op =>
         <[(op_owner op, (op_operator op, op_token_id op)) := ()]> (s_operators s)
     | Remove_operator op =>
         delete (op_owner op, (op_operator op, op_token_id op)) (s_operators s)
     end).
Proof.
  intros Hown. rewrite call_Update_operators. simpl.
  by rewrite apply_operator_update_owner.
Qed.

Lemma call_Transfer_single sender s from_ tx :
  call sender (Transfer [Build_transfer_param from_ [tx]]) s =
  match do_transfer sender s from_ tx with
  | Ok s' => (Ok [], s')
  | Failed msg => (Failed msg, s)
  end.
Proof.
  rewrite call_Transfer. simpl. rewrite run_triples_cons.
  by destruct (do_transfer sender s from_ tx).
Qed.

(** X3. Delegation works from grant to revocation. After the owner o has
    added p as operator for token t, p can transfer any amount of o's token
    t that o's holding covers, to any destination, and the ledger becomes
    the debit of o followed by the credit of the destination; after o has
    removed the entry again, the same transfer by p fails with
    FA2_NOT_OPERATOR and changes nothing. *)
Theorem operator_delegation
    (s : storage) (o p to_ : address) (t : token_id) (a : N) :
  p ≠ o →
  a ≤ holding (s_ledger s) o t →
  let d := Build_update_operator o p t in
  let tx := Build_transfer_destination to_ t a in
  let granted := (call o (Update_operators [Add_operator d]) s).2 in
  let revoked := (call o (Update_operators [Remove_operator d]) granted).2 in
  call p (Transfer [Build_transfer_param o [tx]]) granted
    = (Ok [], with_ledger granted (credit (debit (s_ledger s) o t a) to_ t a)) ∧
  call p (Transfer [Build_transfer_param o [tx]]) revoked
    = (Failed "FA2_NOT_OPERATOR", revoked).
Proof.
  intros Hne Hle d tx granted revoked.
  assert (granted = with_operators s (<[(o, (p, t)) := ()]> (s_operators s)))
    as Hgranted.
  { subst granted. by rewrite call_Update_operators_single. }
  assert (revoked = with_operators s (delete (o, (p, t)) (s_operators s)))
    as Hrevoked.
  { subst revoked. rewrite call_Update_operators_single by done.
    rewrite Hgranted. simpl. unfold with_operators. simpl.
    by rewrite delete_insert_eq. }
  clearbody granted revoked. subst granted revoked.
  rewrite !call_Transfer_single. split.
  - rewrite do_transfer_covered; [done| |done].
    right. simpl. rewrite lookup_insert_eq. by eexists.
  - rewrite do_transfer_unauthorized; [done|].
    intros [Heq|[u Hu]]; [done|]. simpl in Hu.
    by rewrite lookup_delete_eq in Hu.
Qed.

Lemma operator_delegation_witness :
  call bob
    (Transfer [Build_transfer_param alice [Build_transfer_destination carol 0 1]])
    (call alice
       (Update_operators [Add_operator (Build_update_operator alice bob 0)])
       alice_holds_0).2
  = (Ok [],
     with_ledger
       (call alice
          (Update_operators [Add_operator (Build_update_operator alice bob 0)])
          alice_holds_0).2
       (credit (debit (s_ledger alice_holds_0) alice 0 1) carol 0 1)) ∧
  call bob
    (Transfer [Build_transfer_param alice [Build_transfer_destination carol 0 1]])
    (call alice
       (Update_operators [Remove_operator (Build_update_operator alice bob 0)])
       (call alice
          (Update_operators [Add_operator (Build_update_operator alice bob 0)])
          alice_holds_0).2).2
  = (Failed "FA2_NOT_OPERATOR",
     (call alice
        (Update_operators [Remove_operator (Build_update_operator alice bob 0)])
        (call alice
           (Update_operators [Add_operator (Build_update_operator alice bob 0)])
           alice_holds_0).2).2).
Proof.
  assert (bob ≠ alice) as Hne by discriminate.
  assert (1 ≤ holding (s_ledger alice_holds_0) alice 0) as Hle
    by (vm_compute; discriminate).
  exact (operator_delegation alice_holds_0 alice bob carol 0 1 Hne Hle).
Defined.

(** ** Batches *)

Lemma triples_no_txs (froms : list address) :
  triples (map (λ f, Build_transfer_param f []) froms) = [].
Proof. induction froms as [|f froms IH]; [done|]. exact IH. Qed.

(** X4. Empty batches are accepted from every caller and change nothing:
    a Transfer with no group, or with groups that hold no triple, whatever
    source owners the groups name, and an Update_operators with no
    directive, return no operation and the storage they were given.
    Authorization is checked per triple, so a group without triples is never
    checked. *)
Theorem empty_batches_change_nothing
    (sender : address) (s : storage) (froms : list address) :
  call sender (Transfer (map (λ f, Build_transfer_param f []) froms)) s
    = (Ok [], s) ∧
  call sender (Update_operators []) s = (Ok [], s).
Proof.
  split.
  - by rewrite call_Transfer, triples_no_txs.
  - rewrite call_Update_operators. by destruct s.
Qed.

(** X5. One call with two batches in a row is the two calls in a row,
    except that a failure of the second batch also undoes the first: for
    Transfer and for Update_operators, the call on [params1 ++ params2]
    fails with the error of the first call when that fails; otherwise it
    fails with the error of the second call (run on the storage the first
    left) and keeps the original storage, or succeeds with the storage the
    second call leaves. *)
Theorem batches_compose (sender : address) (s : storage) :
  (∀ params1 params2 : list transfer_param,
     call sender (Transfer (params1 ++ params2)) s =
     match call sender (Transfer params1) s with
     | (Ok _, s1) =>
         match call sender (Transfer params2) s1 with
         | (Ok out, s2) => (Ok out, s2)
         | (Failed msg, _) => (Failed msg, s)
         end
     | (Failed msg, _) => (Failed msg, s)
     end) ∧
  (∀ params1 params2 : list update_operator_param,
     call sender (Update_operators (params1 ++ params2)) s =
     match call sender (Update_operators params1) s with
     | (Ok _, s1) =>
         match call sender (Update_operators params2) s1 with
         | (Ok out, s2) => (Ok out, s2)
         | (Failed msg, _) => (Failed msg, s)
         end
     | (Failed msg, _) => (Failed msg, s)
     end).
Proof.
  split; intros params1 params2.
  - rewrite !call_Transfer, triples_app, run_triples_app.
    destruct (run_triples sender s (triples params1)) as [s1|msg]; [|done].
    simpl. rewrite call_Transfer.
    by destruct (run_triples sender s1 (triples params2)).
  - rewrite !call_Update_operators, List_fold_left_app.
    destruct (List_fold_left _ (s_operators s) params1) as [ops1|msg]; [|done].
    simpl. rewrite call_Update_operators. simpl.
    by destruct (List_fold_left _ ops1 params2).
Qed.

(** ** Zero entries *)

(** The ledger stays free of zeros when Alice gives her token to Bob. *)
Lemma call_positive_witness :
  ledger_positive
    (s_ledger
       (call alice
          (Transfer [Build_transfer_param alice
                       [Build_transfer_destination bob 0 1]])
          alice_holds_0).2).
Proof.
  assert (∀ params,
            Transfer [Build_transfer_param alice
                        [Build_transfer_destination bob 0 1]]
            = Transfer params →
            Forall (λ ftx : address * transfer_destination, 0 < tx_amount ftx.2)
              (triples params)) as Hamounts.
  { intros params [= <-]. repeat constructor. }
  assert (ledger_positive (s_ledger alice_holds_0)) as Hpos.
  { intros k q Hk. simpl in Hk.
    apply lookup_singleton_Some in Hk as [_ <-]. reflexivity. }
  exact (call_positive alice
           (Transfer [Build_transfer_param alice
                        [Build_transfer_destination bob 0 1]])
           alice_holds_0 Hamounts Hpos).
Defined.

(** ** Histories: what holds in every storage the contract can reach *)

Lemma execute_snoc s calls c :
  execute s (calls ++ [c]) = (call c.1 c.2 (execute s calls)).2.
Proof. unfold execute. by rewrite foldl_app. Qed.

Lemma execute_cons s c calls :
  execute s (c :: calls) = execute (call c.1 c.2 s).2 calls.
Proof. done. Qed.

(** A property of the origination storage that every call keeps holds in
    every reachable storage. *)
Lemma reachable_invariant (P : storage → Prop) :
  P initial_storage →
  (∀ s sender p, P s → P (call sender p s).2) →
  ∀ s, reachable s → P s.
Proof.
  intros Hinit Hstep s [calls ->].
  induction calls as [|c calls IH] using rev_ind; [done|].
  rewrite execute_snoc. by apply Hstep.
Qed.

Lemma reachable_call s sender p :
  reachable s → reachable (call sender p s).2.
Proof.
  intros [calls ->]. exists (calls ++ [(sender, p)]). by rewrite execute_snoc.
Qed.

(** The storage a call leaves, entrypoint by entrypoint. *)
Lemma call_storage_cases sender p s :
  let s' := (call sender p s).2 in
  s' = s ∨
  (∃ params, p = Transfer params ∧
     run_triples sender s (triples params) = Ok s') ∨
  (∃ params ops, p = Update_operators params ∧ s' = with_operators s ops) ∨
  (∃ param, p = Mint param ∧
     s' = {| s_ledger := <[(mint_to_ param, s_next_token_id s) := 1]> (s_ledger s);
             s_operators := s_operators s;
             s_token_metadata :=
               <[s_next_token_id s :=
                   {| tm_token_id := s_next_token_id s;
                      tm_token_info := mint_metadata param |}]>
                 (s_token_metadata s);
             s_next_token_id := s_next_token_id s + 1 |}).
Proof.
  destruct p as [params|param|params|param]; intros s'; subst s'.
  - rewrite call_Transfer.
    destruct (run_triples sender s (triples params)) as [s1|msg] eqn:Hrun;
      [|by left].
    right. left. exists params. by rewrite Hrun.
  - by left.
  - rewrite call_Update_operators.
    destruct (List_fold_left _ _ _) as [ops|msg]; [|by left].
    right. right. left. by exists params, ops.
  - right. right. right. by exists param.
Qed.

Lemma call_next_token_id sender p s :
  s_next_token_id (call sender p s).2 =
  s_next_token_id s + (if is_Mint p then 1 else 0).
Proof.
  destruct p as [params|param|params|param].
  - rewrite call_Transfer.
    destruct (run_triples sender s (triples params)) as [s1|msg] eqn:Hrun;
      simpl; [|lia].
    apply run_triples_frame in Hrun as (_ & _ & ->). lia.
  - simpl. lia.
  - rewrite call_Update_operators.
    destruct (List_fold_left _ _ _) as [ops|msg]; simpl; lia.
  - simpl. lia.
Qed.

Lemma execute_next_token_id
    (s : storage) (calls : list (address * parameter)) :
  s_next_token_id (execute s calls) =
  s_next_token_id s + N.of_nat (mints calls).
Proof.
  revert s. induction calls as [|[sender p] calls IH]; intros s.
  - simpl. unfold mints. simpl. lia.
  - rewrite execute_cons, IH, call_next_token_id. unfold mints. simpl.
    rewrite filter_cons. simpl. destruct (is_Mint p); case_decide; simpl;
      try done; lia.
Qed.

(** X7. The counter counts the Mint calls: after any history of calls, by
    any callers, failed calls included, next_token_id is its value before
    the history plus the number of Mint calls in it. No other entrypoint
    moves the counter, and it never decreases. *)
Theorem counter_counts_mints
    (s : storage) (calls : list (address * parameter)) :
  s_next_token_id (execute s calls) =
    s_next_token_id s + N.of_nat (mints calls) ∧
  s_next_token_id s ≤ s_next_token_id (execute s calls).
Proof. rewrite execute_next_token_id. split; [done|lia]. Qed.

Lemma call_metadata_complete sender p s :
  metadata_complete s → metadata_complete (call sender p s).2.
Proof.
  intros Hinv.
  destruct (call_storage_cases sender p s)
    as [->|[(params & _ & Hrun)|[(params & ops & _ & ->)|(param & _ & ->)]]];
    [done| |done|].
  - apply run_triples_frame in Hrun as (_ & Hmd & Hnext).
    intros k. rewrite Hmd, Hnext. apply Hinv.
  - intros k. simpl. destruct (Hinv k) as [Hdom Hid].
    destruct (decide (s_next_token_id s = k)) as [<-|Hne].
    + rewrite lookup_insert_eq. split.
      * split; [lia | by eexists].
      * by intros v [= <-].
    + rewrite lookup_insert_ne by done. split; [|done].
      rewrite Hdom. lia.
Qed.

Lemma initial_metadata_complete : metadata_complete initial_storage.
Proof.
  intros k. simpl. rewrite lookup_empty. split.
  - split; [by intros [v Hv] | lia].
  - done.
Qed.

Lemma metadata_complete_reachable (s : storage) :
  reachable s → metadata_complete s.
Proof.
  apply reachable_invariant.
  - apply initial_metadata_complete.
  - intros s1 sender p. apply call_metadata_complete.
Qed.

(** X8. In every storage the contract can reach from its origination
    storage, the metadata store holds an entry for exactly the token-ids
    below next_token_id, and the token_id field of each entry is the key it
    is stored under. *)
Theorem reachable_metadata_complete (s : storage) (k : token_id) :
  reachable s →
  (is_Some (s_token_metadata s !! k) ↔ k < s_next_token_id s) ∧
  (∀ v, s_token_metadata s !! k = Some v → tm_token_id v = k).
Proof. intros Hreach. by apply metadata_complete_reachable. Qed.

Lemma minted_0_reachable : reachable minted_0.
Proof.
  exists [(alice, Mint (Build_mint_param alice {[ "naplps" := [Byte.xab] ]}))].
  vm_compute. reflexivity.
Qed.

Lemma reachable_metadata_complete_witness :
  (is_Some (s_token_metadata minted_0 !! 0) ↔ 0 < s_next_token_id minted_0) ∧
  (∀ v, s_token_metadata minted_0 !! 0 = Some v → tm_token_id v = 0).
Proof. exact (reachable_metadata_complete minted_0 0 minted_0_reachable). Defined.

Lemma call_metadata_kept sender p s k v :
  metadata_complete s →
  s_token_metadata s !! k = Some v →
  s_token_metadata (call sender p s).2 !! k = Some v.
Proof.
  intros Hinv Hk.
  destruct (call_storage_cases sender p s)
    as [->|[(params & _ & Hrun)|[(params & ops & _ & ->)|(param & _ & ->)]]];
    [done| |done|].
  - apply run_triples_frame in Hrun as (_ & -> & _). done.
  - simpl. rewrite lookup_insert_ne; [done|].
    destruct (Hinv k) as [Hdom _].
    assert (k < s_next_token_id s) by (apply Hdom; by eexists). lia.
Qed.

(** X9. Metadata is written once: in a reachable storage, an entry of the
    metadata store stays exactly as it is through every later history of
    calls; no entrypoint changes or removes the metadata of a token that
    was minted. *)
Theorem metadata_is_immutable
    (s : storage) (k : token_id) (v : token_metadata_value)
    (calls : list (address * parameter)) :
  reachable s →
  s_token_metadata s !! k = Some v →
  s_token_metadata (execute s calls) !! k = Some v.
Proof.
  revert s. induction calls as [|[sender p] calls IH]; intros s Hreach Hk;
    [done|].
  rewrite execute_cons. apply IH; [by apply reachable_call|].
  apply call_metadata_kept; [|done]. by apply metadata_complete_reachable.
Qed.

Lemma metadata_is_immutable_witness :
  s_token_metadata
    (execute minted_0
       [(alice,
         Transfer [Build_transfer_param alice
                     [Build_transfer_destination bob 0 1]]);
        (bob, Mint (Build_mint_param bob ∅))]) !! 0
  = Some {| tm_token_id := 0;
            tm_token_info := {[ "naplps" := [Byte.xab] ]} |}.
Proof.
  assert (s_token_metadata minted_0 !! 0
          = Some {| tm_token_id := 0;
                    tm_token_info := {[ "naplps" := [Byte.xab] ]} |}) as Hk
    by (vm_compute; reflexivity).
  exact (metadata_is_immutable minted_0 0 _ _ minted_0_reachable Hk).
Defined.

(** ** Histories: one unit of every minted token *)

Lemma holding_le_supply (l : ledger) (o : address) (t : token_id) :
  holding l o t ≤ total_supply t l.
Proof.
  pose proof (total_supply_remove t (o, t) l) as Hrem.
  fold (holding l o t) in Hrem. unfold share in Hrem. simpl in Hrem.
  rewrite decide_True in Hrem by done. lia.
Qed.

Lemma two_holdings_le_supply (l : ledger) (o1 o2 : address) (t : token_id) :
  o1 ≠ o2 → holding l o1 t + holding l o2 t ≤ total_supply t l.
Proof.
  intros Hne.
  pose proof (total_supply_remove t (o1, t) l) as Hrem.
  fold (holding l o1 t) in Hrem. unfold share in Hrem. simpl in Hrem.
  rewrite decide_True in Hrem by done.
  pose proof (holding_le_supply (delete (o1, t) l) o2 t) as Hle.
  unfold holding at 1 in Hle. rewrite lookup_delete_ne in Hle by congruence.
  fold (holding l o2 t) in Hle. lia.
Qed.

Lemma supply_has_holder (l : ledger) (t : token_id) :
  0 < total_supply t l → ∃ o, 0 < holding l o t.
Proof.
  induction l as [|[o u] q l Hfresh IH] using map_ind.
  - unfold total_supply. rewrite map_fold_empty. lia.
  - rewrite total_supply_insert_fresh by done. unfold share. simpl.
    intros Hpos. destruct (decide (u = t)) as [->|Hu].
    + destruct (decide (0 < q)) as [Hq|Hq].
      * exists o. unfold holding. by rewrite lookup_insert_eq.
      * destruct IH as [o' Ho']; [lia|]. exists o'. unfold holding in *.
        rewrite lookup_insert_ne; [done|].
        intros [= <-]. rewrite Hfresh in Ho'. simpl in Ho'. lia.
    + destruct IH as [o' Ho']; [lia|]. exists o'. unfold holding in *.
      rewrite lookup_insert_ne; [done|]. congruence.
Qed.

Lemma call_one_unit_per_token sender p s :
  one_unit_per_token s → one_unit_per_token (call sender p s).2.
Proof.
  intros Hinv.
  destruct (call_storage_cases sender p s)
    as [->|[(params & _ & Hrun)|[(params & ops & _ & ->)|(param & _ & ->)]]];
    [done| |done|].
  - intros t. rewrite (run_triples_supply _ _ _ _ t Hrun).
    apply run_triples_frame in Hrun as (_ & _ & ->). apply Hinv.
  - intros t. simpl.
    pose proof (total_supply_store t (mint_to_ param, s_next_token_id s) 1
                  (s_ledger s)) as Hst.
    fold (holding (s_ledger s) (mint_to_ param) (s_next_token_id s)) in Hst.
    pose proof (holding_le_supply (s_ledger s) (mint_to_ param)
                  (s_next_token_id s)) as Hold.
    rewrite (Hinv (s_next_token_id s)), N.ltb_irrefl in Hold.
    assert (holding (s_ledger s) (mint_to_ param) (s_next_token_id s) = 0)
      as Hzero by lia.
    rewrite Hzero in Hst. specialize (Hinv t). unfold share in Hst.
    simpl in Hst.
    destruct (decide (s_next_token_id s = t)) as [<-|Hne].
    + rewrite N.ltb_irrefl in Hinv.
      destruct (N.ltb_spec (s_next_token_id s) (s_next_token_id s + 1)); lia.
    + destruct (N.ltb_spec t (s_next_token_id s));
        destruct (N.ltb_spec t (s_next_token_id s + 1)); lia.
Qed.

Lemma one_unit_per_token_reachable (s : storage) :
  reachable s → one_unit_per_token s.
Proof.
  apply reachable_invariant.
  - intros t. simpl. unfold total_supply. rewrite map_fold_empty.
    destruct (N.ltb_spec t 0); lia.
  - intros s1 sender p. apply call_one_unit_per_token.
Qed.

(** X10. Whatever calls the contract has received since origination, the
    ledger quantities of a token-id sum to 1 when the token-id is below the
    number of Mint calls so far, and to 0 otherwise: every minted token
    exists in exactly one unit, and no call creates or destroys a unit. *)
Theorem supply_after_history
    (calls : list (address * parameter)) (t : token_id) :
  total_supply t (s_ledger (execute initial_storage calls)) =
  if t <? N.of_nat (mints calls) then 1 else 0.
Proof.
  rewrite one_unit_per_token_reachable by (by exists calls).
  by rewrite execute_next_token_id.
Qed.

(** X11. In every reachable storage a minted token has exactly one owner:
    for a token-id below next_token_id one address holds quantity 1 and
    every other address holds 0 (an absent entry or a stored 0); for a
    token-id from next_token_id on, every address holds 0. *)
Theorem minted_token_has_one_owner (s : storage) (t : token_id) :
  reachable s →
  (t < s_next_token_id s →
   ∃ o, holding (s_ledger s) o t = 1 ∧
        ∀ o', o' ≠ o → holding (s_ledger s) o' t = 0) ∧
  (s_next_token_id s ≤ t → ∀ o, holding (s_ledger s) o t = 0).
Proof.
  intros Hreach.
  pose proof (one_unit_per_token_reachable s Hreach t) as Hsupply.
  split.
  - intros Hlt. apply N.ltb_lt in Hlt as Hb. rewrite Hb in Hsupply.
    destruct (supply_has_holder (s_ledger s) t) as [o Ho]; [lia|].
    pose proof (holding_le_supply (s_ledger s) o t) as Hle.
    exists o. split; [lia|]. intros o' Hne.
    pose proof (two_holdings_le_supply (s_ledger s) o' o t Hne). lia.
  - intros Hge. apply N.ltb_ge in Hge as Hb. rewrite Hb in Hsupply.
    intros o. pose proof (holding_le_supply (s_ledger s) o t). lia.
Qed.

Lemma minted_token_has_one_owner_witness :
  (0 < s_next_token_id minted_0 →
   ∃ o, holding (s_ledger minted_0) o 0 = 1 ∧
        ∀ o', o' ≠ o → holding (s_ledger minted_0) o' 0 = 0) ∧
  (s_next_token_id minted_0 ≤ 0 → ∀ o, holding (s_ledger minted_0) o 0 = 0).
Proof. exact (minted_token_has_one_owner minted_0 0 minted_0_reachable). Defined.

(** ** Nobody is debited without authority *)

Lemma do_transfer_debit_authorized sender s from_ tx s' (o : address)
    (t : token_id) :
  do_transfer sender s from_ tx = Ok s' →
  holding (s_ledger s') o t < holding (s_ledger s) o t →
  sender = o ∨ is_Some (s_operators s !! (o, (sender, t))).
Proof.
  intros (Hauth & Hle & ->)%do_transfer_Ok_inv. simpl.
  destruct (decide ((from_, tx_token_id tx) = (o, t))) as [[= <- <-]|Hne].
  - intros _. exact Hauth.
  - rewrite !holding_credit, !holding_debit.
    repeat case_decide; try congruence; try lia.
    match goal with H : (_, _) = (o, t) |- _ => injection H as <- <- end. lia.
Qed.

Lemma run_triples_debit_authorized sender l s s' (o : address) (t : token_id) :
  run_triples sender s l = Ok s' →
  holding (s_ledger s') o t < holding (s_ledger s) o t →
  sender = o ∨ is_Some (s_operators s !! (o, (sender, t))).
Proof.
  revert s. induction l as [|[from_ tx] l IH]; intros s.
  - intros [= <-]. lia.
  - rewrite run_triples_cons. intros (s1 & Hstep & Hrest)%bind_Ok_inv Hlt.
    destruct (decide (holding (s_ledger s1) o t < holding (s_ledger s) o t))
      as [Hfirst|Hfirst].
    + by eapply do_transfer_debit_authorized.
    + apply do_transfer_frame in Hstep as (<- & _).
      apply IH; [done|lia].
Qed.

(** X12. Nobody is debited without authority: when a Transfer call leaves
    an owner with less of a token than before, the caller is that owner, or
    the operator store held the entry (owner, (caller, token-id)) when the
    call was made. *)
Theorem transfer_debits_need_authority
    (sender : address) (params : list transfer_param) (s : storage)
    (o : address) (t : token_id) :
  holding (s_ledger (call sender (Transfer params) s).2) o t
    < holding (s_ledger s) o t →
  sender = o ∨ is_Some (s_operators s !! (o, (sender, t))).
Proof.
  rewrite call_Transfer.
  destruct (run_triples sender s (triples params)) as [s'|msg] eqn:Hrun;
    simpl; [|lia].
  by eapply run_triples_debit_authorized.
Qed.

Lemma transfer_debits_need_authority_witness :
  alice = alice ∨ is_Some (s_operators alice_holds_0 !! (alice, (alice, 0))).
Proof.
  assert (holding
            (s_ledger
               (call alice
                  (Transfer [Build_transfer_param alice
                               [Build_transfer_destination bob 0 1]])
                  alice_holds_0).2) alice 0
          < holding (s_ledger alice_holds_0) alice 0) as Hless
    by (vm_compute; reflexivity).
  exact (transfer_debits_need_authority alice
           [Build_transfer_param alice [Build_transfer_destination bob 0 1]]
           alice_holds_0 alice 0 Hless).
Defined.

(** * The byte helpers of the wallet page *)

(** ** The loops, unrolled *)

Lemma stringToHex_loop_spec (fuel : nat) (str : list N) (i : nat) (hex : list N) :
  (fuel + i = length str)%nat →
  JS.stringToHex_loop fuel str i hex =
  hex ++ flat_map JS.hex_of_unit (drop i str).
Proof.
  revert i hex. induction fuel as [|fuel IH]; intros i hex Hlen; simpl.
  - rewrite drop_ge by lia. simpl. by rewrite app_nil_r.
  - destruct (lookup_lt_is_Some_2 str i) as [c Hc]; [lia|].
    rewrite Hc, IH by lia. rewrite (drop_S _ _ _ Hc). simpl.
    by rewrite <-app_assoc.
Qed.

Lemma stringToHex_flat_map (str : list N) :
  JS.stringToHex str = flat_map JS.hex_of_unit str.
Proof. unfold JS.stringToHex. by rewrite stringToHex_loop_spec. Qed.

Lemma hexToString_loop_spec (fuel : nat) (hex : list N) (i : nat) (str : list N) :
  (length hex - i ≤ 2 * fuel)%nat →
  JS.hexToString_loop fuel hex i str = str ++ JS.chars_of_hex (drop i hex).
Proof.
  revert i str. induction fuel as [|fuel IH]; intros i str Hlen; simpl.
  - rewrite drop_ge by lia. simpl. by rewrite app_nil_r.
  - destruct (Nat.ltb_spec i (length hex)) as [Hi|Hi].
    + rewrite IH by lia. unfold JS.substr.
      rewrite <-(drop_drop hex 2 i).
      destruct (drop i hex) as [|a [|b rest]] eqn:Hdrop.
      * apply (f_equal length) in Hdrop. rewrite length_drop in Hdrop.
        simpl in Hdrop. lia.
      * simpl. by rewrite app_nil_r.
      * simpl. by rewrite <-app_assoc.
    + rewrite drop_ge by lia. simpl. by rewrite app_nil_r.
Qed.

Lemma hexToString_chars_of_hex (hex : list N) :
  JS.hexToString hex = JS.chars_of_hex hex.
Proof. unfold JS.hexToString. rewrite hexToString_loop_spec by lia. done. Qed.

(** ** One code unit, by enumeration *)

Lemma forall_below (n : nat) (P : N → Prop) :
  Forall P (map N.of_nat (seq 0 n)) → ∀ c, c < N.of_nat n → P c.
Proof.
  intros Hall c Hc. rewrite Forall_forall in Hall. apply Hall.
  apply list_elem_of_In, in_map_iff. exists (N.to_nat c).
  split; [apply N2Nat.id|]. apply in_seq. lia.
Qed.

(** A byte is written as two lowercase hexadecimal digits, and read back
    as itself. *)
Lemma hex_of_byte (c : N) :
  c < 256 →
  JS.chars_of_hex (JS.hex_of_unit c) = [c] ∧
  length (JS.hex_of_unit c) = 2%nat ∧
  Forall (λ x, JS.is_lower_hex_digit x = true) (JS.hex_of_unit c).
Proof.
  revert c. apply (forall_below 256). apply (bool_decide_unpack _).
  vm_compute. exact I.
Qed.

(** Two hexadecimal digits are read as one byte, which is written as the
    same two digits in lowercase. *)
Lemma byte_of_hex (a b : N) :
  JS.is_hex_digit a = true → JS.is_hex_digit b = true →
  flat_map JS.hex_of_unit (JS.chars_of_hex [a; b])
  = [JS.to_lower_hex a; JS.to_lower_hex b].
Proof.
  intros Ha Hb.
  assert (∀ x, JS.is_hex_digit x = true → x < 103) as Hbound.
  { intros x. unfold JS.is_hex_digit.
    rewrite !orb_true_iff, !andb_true_iff, !N.leb_le. lia. }
  assert (Forall (λ x,
            Forall (λ y,
              JS.is_hex_digit x = true → JS.is_hex_digit y = true →
              flat_map JS.hex_of_unit (JS.chars_of_hex [x; y])
              = [JS.to_lower_hex x; JS.to_lower_hex y])
              (map N.of_nat (seq 0 103)))
            (map N.of_nat (seq 0 103))) as Hall.
  { apply (bool_decide_unpack _). vm_compute. exact I. }
  pose proof (forall_below 103 _ Hall a (Hbound a Ha)) as Hrow.
  simpl in Hrow. by apply (forall_below 103 _ Hrow b (Hbound b Hb)).
Qed.

Lemma list_pair_ind {A} (P : list A → Prop) :
  P [] → (∀ a, P [a]) → (∀ a b l, P l → P (a :: b :: l)) → ∀ l, P l.
Proof.
  intros Hnil Hone Hstep l.
  enough (P l ∧ ∀ a, P (a :: l)) as [Hl _] by exact Hl.
  induction l as [|x l [IH1 IH2]]; split; auto.
Qed.

Lemma chars_of_hex_pair (a b : N) (rest : list N) :
  JS.chars_of_hex (a :: b :: rest) =
  JS.chars_of_hex [a; b] ++ JS.chars_of_hex rest.
Proof. simpl. by rewrite app_nil_r. Qed.

Lemma length_String_fromCharCode (x : option Z) :
  length (JS.String_fromCharCode x) = 1%nat.
Proof. by destruct x. Qed.

Lemma length_chars_of_hex (hex : list N) :
  length (JS.chars_of_hex hex) = ((length hex + 1) / 2)%nat.
Proof.
  induction hex as [|a|a b hex IH] using list_pair_ind.
  - done.
  - simpl. by rewrite length_String_fromCharCode.
  - simpl JS.chars_of_hex. rewrite length_app, length_String_fromCharCode, IH.
    simpl length.
    replace (S (S (length hex)) + 1)%nat with (length hex + 1 + 1 * 2)%nat by lia.
    rewrite Nat.div_add by lia. lia.
Qed.

(** ** Encoding and decoding bytes *)

(** X13. A binary string survives the way to the chain and back: for a
    string all of whose code units are bytes (below 256),
    hexToString(stringToHex(str)) is str. *)
Theorem hexToString_stringToHex (str : list N) :
  Forall (λ c, c < 256) str →
  JS.hexToString (JS.stringToHex str) = str.
Proof.
  rewrite hexToString_chars_of_hex, stringToHex_flat_map.
  induction 1 as [|c str Hc _ IH]; [done|]. simpl.
  destruct (hex_of_byte c Hc) as (Hback & Hlen & _).
  destruct (JS.hex_of_unit c) as [|a [|b [|]]]; try discriminate Hlen.
  rewrite <-app_comm_cons. simpl app.
  by rewrite chars_of_hex_pair, Hback, IH.
Qed.

Lemma hexToString_stringToHex_witness :
  JS.hexToString (JS.stringToHex [27; 0; 171; 255; 65]) = [27; 0; 171; 255; 65].
Proof.
  assert (Forall (λ c, c < 256) [27; 0; 171; 255; 65]) as Hbytes
    by (repeat constructor).
  exact (hexToString_stringToHex [27; 0; 171; 255; 65] Hbytes).
Defined.

(** X14. stringToHex writes a binary string as a bytes literal: for a string
    of bytes the result has twice its length and consists of the digits 0-9
    and the lowercase letters a-f only. *)
Theorem stringToHex_of_bytes (str : list N) :
  Forall (λ c, c < 256) str →
  length (JS.stringToHex str) = (2 * length str)%nat ∧
  Forall (λ x, JS.is_lower_hex_digit x = true) (JS.stringToHex str).
Proof.
  rewrite stringToHex_flat_map.
  induction 1 as [|c str Hc _ [IHlen IHhex]]; [by split|]. simpl.
  destruct (hex_of_byte c Hc) as (_ & Hlen & Hhex).
  rewrite length_app, Hlen, IHlen. split; [lia|].
  by apply Forall_app.
Qed.

Lemma stringToHex_of_bytes_witness :
  length (JS.stringToHex [27; 0; 171]) = (2 * length [27%N; 0%N; 171%N])%nat ∧
  Forall (λ x, JS.is_lower_hex_digit x = true) (JS.stringToHex [27; 0; 171]).
Proof.
  assert (Forall (λ c, c < 256) [27; 0; 171]) as Hbytes by (repeat constructor).
  exact (stringToHex_of_bytes [27; 0; 171] Hbytes).
Defined.

Lemma to_lower_hex_lower (c : N) :
  JS.is_lower_hex_digit c = true → JS.to_lower_hex c = c.
Proof.
  unfold JS.is_lower_hex_digit, JS.to_lower_hex.
  rewrite orb_true_iff, !andb_true_iff, !N.leb_le. intros Hc.
  destruct (N.leb_spec 65 c); destruct (N.leb_spec c 70); simpl; lia.
Qed.

Lemma flat_map_chars_of_hex (hex : list N) :
  Forall (λ c, JS.is_hex_digit c = true) hex →
  Nat.Even (length hex) →
  flat_map JS.hex_of_unit (JS.chars_of_hex hex) = map JS.to_lower_hex hex.
Proof.
  induction hex as [|a|a b hex IH] using list_pair_ind.
  - done.
  - intros _ [n Hn]. simpl in Hn. lia.
  - intros Hall [n Hn]. simpl in Hn.
    apply Forall_cons in Hall as [Ha Hall].
    apply Forall_cons in Hall as [Hb Hall].
    rewrite chars_of_hex_pair, flat_map_app, byte_of_hex by done.
    rewrite IH; [done|done|]. exists (n - 1)%nat. lia.
Qed.

(** X15. Hex from the chain survives decoding and encoding: for a string
    of hexadecimal digits of even length, stringToHex(hexToString(hex)) is
    hex with its letters in lowercase, hence hex itself when it is written
    with the digits 0-9 and a-f. *)
Theorem stringToHex_hexToString (hex : list N) :
  Forall (λ c, JS.is_hex_digit c = true) hex →
  Nat.Even (length hex) →
  JS.stringToHex (JS.hexToString hex) = map JS.to_lower_hex hex ∧
  (Forall (λ c, JS.is_lower_hex_digit c = true) hex →
   JS.stringToHex (JS.hexToString hex) = hex).
Proof.
  intros Hall Heven.
  rewrite hexToString_chars_of_hex, stringToHex_flat_map.
  rewrite flat_map_chars_of_hex by done. split; [done|].
  intros Hlower. clear Hall Heven.
  induction Hlower as [|c hex Hc _ IH]; [done|]. simpl.
  by rewrite to_lower_hex_lower, IH.
Qed.

Lemma stringToHex_hexToString_witness :
  JS.stringToHex (JS.hexToString [49; 66; 97; 98])
    = map JS.to_lower_hex [49; 66; 97; 98] ∧
  (Forall (λ c, JS.is_lower_hex_digit c = true) [49; 66; 97; 98] →
   JS.stringToHex (JS.hexToString [49; 66; 97; 98]) = [49; 66; 97; 98]).
Proof.
  assert (Forall (λ c, JS.is_hex_digit c = true) [49; 66; 97; 98]) as Hall
    by (repeat constructor).
  assert (Nat.Even (length [49; 66; 97; 98])) as Heven
    by (exists 2%nat; reflexivity).
  exact (stringToHex_hexToString [49; 66; 97; 98] Hall Heven).
Defined.

(** ** Beyond bytes *)

Lemma length_fill_single (n : nat) (cur : list N) (c : N) :
  length (JS.fill n cur [c]) = n.
Proof.
  revert cur. induction n as [|n IH]; intros cur; [done|].
  destruct cur as [|x cur]; simpl; by rewrite IH.
Qed.

Lemma length_hex_of_unit (c : N) :
  (2 ≤ length (JS.hex_of_unit c))%nat ∧
  (length (JS.Number_toString c 16) ≤ length (JS.hex_of_unit c))%nat.
Proof.
  unfold JS.hex_of_unit, JS.padStart.
  destruct (Nat.leb_spec 2 (length (JS.Number_toString c 16))) as [Hge|Hlt].
  - done.
  - rewrite length_app, length_fill_single. lia.
Qed.

Lemma length_toString_digits (fuel : nat) (radix n : N) (acc : list N) :
  (length acc ≤ length (JS.toString_digits fuel radix n acc))%nat.
Proof.
  revert n acc. induction fuel as [|fuel IH]; intros n acc; simpl; [done|].
  destruct (n / radix =? 0); simpl; [lia|].
  etransitivity; [|apply IH]. simpl. lia.
Qed.

(** A code unit from 256 on is written with three digits or more. *)
Lemma length_Number_toString_wide (c : N) :
  256 ≤ c → (3 ≤ length (JS.Number_toString c 16))%nat.
Proof.
  intros Hc. unfold JS.Number_toString.
  assert (8 ≤ N.log2 c) as Hlog.
  { change 8 with (N.log2 256). by apply N.log2_le_mono. }
  destruct (N.to_nat (N.log2 c)) as [|[|fuel]] eqn:Hfuel; [lia..|].
  assert (16 ≤ c / 16) as Hdiv1 by (apply N.div_le_lower_bound; lia).
  assert (1 ≤ c / 16 / 16) as Hdiv2 by (apply N.div_le_lower_bound; lia).
  simpl.
  destruct (N.eqb_spec (c / 16) 0) as [|_]; [lia|].
  destruct (N.eqb_spec (c / 16 / 16) 0) as [|_]; [lia|].
  destruct (c / 16 / 16 / 16 =? 0); simpl; [lia|].
  etransitivity; [|apply length_toString_digits]. simpl. lia.
Qed.

Lemma length_stringToHex (str : list N) :
  (2 * length str ≤ length (JS.stringToHex str))%nat ∧
  (Exists (λ c, 256 ≤ c) str →
   (2 * length str < length (JS.stringToHex str))%nat).
Proof.
  rewrite stringToHex_flat_map.
  induction str as [|c str [IHle IHlt]]; simpl.
  - split; [lia|]. by intros ?%Exists_nil.
  - rewrite length_app.
    destruct (length_hex_of_unit c) as [Htwo Hdigits]. split; [lia|].
    intros [Hwide|Hrest]%Exists_cons.
    + apply length_Number_toString_wide in Hwide. lia.
    + specialize (IHlt Hrest). lia.
Qed.

(** X16. The round trip holds for bytes only: when some code unit of str is
    256 or more, stringToHex writes it with more than two digits, the hex
    string is longer than twice str, and hexToString(stringToHex(str)) is
    longer than str, so it is not str. *)
Theorem round_trip_needs_bytes (str : list N) :
  Exists (λ c, 256 ≤ c) str →
  (2 * length str < length (JS.stringToHex str))%nat ∧
  (length str < length (JS.hexToString (JS.stringToHex str)))%nat ∧
  JS.hexToString (JS.stringToHex str) ≠ str.
Proof.
  intros Hwide.
  destruct (length_stringToHex str) as [_ Hlong]. specialize (Hlong Hwide).
  assert (length str < length (JS.hexToString (JS.stringToHex str)))%nat
    as Hlen.
  { rewrite hexToString_chars_of_hex, length_chars_of_hex.
    apply Nat.div_le_lower_bound; lia. }
  split; [done|]. split; [done|].
  intros Heq. rewrite Heq in Hlen. lia.
Qed.

Lemma round_trip_needs_bytes_witness :
  (2 * length [65%N; 256%N] < length (JS.stringToHex [65%N; 256%N]))%nat ∧
  (length [65%N; 256%N]
   < length (JS.hexToString (JS.stringToHex [65%N; 256%N])))%nat ∧
  JS.hexToString (JS.stringToHex [65; 256]) ≠ [65; 256].
Proof.
  assert (Exists (λ c, 256 ≤ c) [65; 256]) as Hwide.
  { apply Exists_cons_tl, Exists_cons_hd. by vm_compute. }
  exact (round_trip_needs_bytes [65; 256] Hwide).
Defined.

Lemma String_fromCharCode_range (x : option Z) :
  Forall (λ c, c < 65536) (JS.String_fromCharCode x).
Proof.
  destruct x as [z|]; repeat constructor.
  pose proof (Z.mod_pos_bound z 65536). lia.
Qed.

(** X17. hexToString accepts every string: whatever hex holds, digits or
    not, of even or odd length, the result has one code unit for every two
    of hex, a last single one counted as a pair (the length of hex plus 1,
    halved), and every code unit of the result is below 65536. *)
Theorem hexToString_total (hex : list N) :
  length (JS.hexToString hex) = ((length hex + 1) / 2)%nat ∧
  Forall (λ c, c < 65536) (JS.hexToString hex).
Proof.
  rewrite hexToString_chars_of_hex. split; [apply length_chars_of_hex|].
  induction hex as [|a|a b hex IH] using list_pair_ind.
  - constructor.
  - apply String_fromCharCode_range.
  - simpl JS.chars_of_hex. apply Forall_app. split; [|done].
    apply String_fromCharCode_range.
Qed.

(** * The page reads back what it minted *)

Lemma call_not_Mint_frame sender p s :
  is_Mint p = false →
  s_token_metadata (call sender p s).2 = s_token_metadata s ∧
  s_next_token_id (call sender p s).2 = s_next_token_id s.
Proof.
  intros Hp.
  destruct (call_storage_cases sender p s)
    as [->|[(params & _ & Hrun)|[(params & ops & _ & ->)|(param & -> & _)]]];
    [done| |done|discriminate Hp].
  by apply run_triples_frame in Hrun as (_ & -> & ->).
Qed.

Lemma execute_no_Mint_frame s calls :
  mints calls = 0%nat →
  s_token_metadata (execute s calls) = s_token_metadata s ∧
  s_next_token_id (execute s calls) = s_next_token_id s.
Proof.
  revert s. induction calls as [|[sender p] calls IH]; intros s Hm; [done|].
  assert (is_Mint p = false ∧ mints calls = 0%nat) as [Hp Hrest].
  { unfold mints in *. rewrite filter_cons in Hm. simpl in Hm.
    destruct (is_Mint p); case_decide; try done. }
  rewrite execute_cons. cbn [fst snd].
  destruct (IH (call sender p s).2 Hrest) as [-> ->].
  by apply call_not_Mint_frame.
Qed.

(** X18. The key the page reads is the token it minted last. After a Mint
    call with payload m on a storage whose counter is n, and any later calls
    that are not mints (transfers, operator updates, balance queries, failed
    or not), the metadata store holds, under the key next_token_id - 1 that
    readLatestNaplps computes, the entry (token_id = n, token_info = m), and
    next_token_id is not 0. *)
Theorem latest_token_is_last_mint
    (s : storage) (sender d : address) (m : token_info)
    (calls : list (address * parameter)) :
  mints calls = 0%nat →
  let s' := execute (call sender (Mint (Build_mint_param d m)) s).2 calls in
  s_next_token_id s' ≠ 0 ∧
  s_token_metadata s' !! (s_next_token_id s' - 1) =
    Some {| tm_token_id := s_next_token_id s; tm_token_info := m |}.
Proof.
  intros Hcalls s'. subst s'.
  destruct (execute_no_Mint_frame
              (call sender (Mint (Build_mint_param d m)) s).2 calls Hcalls)
    as [-> ->].
  simpl. split; [lia|].
  replace (s_next_token_id s + 1 - 1) with (s_next_token_id s) by lia.
  apply lookup_insert_eq.
Qed.

Lemma latest_token_is_last_mint_witness :
  s_next_token_id
    (execute
       (call alice (Mint (Build_mint_param alice {[ "naplps" := [Byte.xab] ]}))
          initial_storage).2
       [(alice,
         Transfer [Build_transfer_param alice
                     [Build_transfer_destination bob 0 1]])]) ≠ 0 ∧
  s_token_metadata
    (execute
       (call alice (Mint (Build_mint_param alice {[ "naplps" := [Byte.xab] ]}))
          initial_storage).2
       [(alice,
         Transfer [Build_transfer_param alice
                     [Build_transfer_destination bob 0 1]])])
  !! (s_next_token_id
        (execute
           (call alice
              (Mint (Build_mint_param alice {[ "naplps" := [Byte.xab] ]}))
              initial_storage).2
           [(alice,
             Transfer [Build_transfer_param alice
                         [Build_transfer_destination bob 0 1]])]) - 1)
  = Some {| tm_token_id := s_next_token_id initial_storage;
            tm_token_info := {[ "naplps" := [Byte.xab] ]} |}.
Proof.
  assert (mints
            [(alice,
              Transfer [Build_transfer_param alice
                          [Build_transfer_destination bob 0 1]])] = 0%nat)
    as Hcalls by reflexivity.
  exact (latest_token_is_last_mint initial_storage alice alice
           {[ "naplps" := [Byte.xab] ]} _ Hcalls).
Defined.
